(** * toDoList: the task list engine of [src/App.jsx] and its persistence

    A shallow embedding of the functional core of the single-page to-do
    list: the list updaters passed to [setTodos] ([addTodo], [toggle], [del],
    [edit], [clearCompleted]), the derived views ([filtered], [left]), the
    edit guard of [TodoItem] ([commit]) and the [useLocalStorage] hook with
    the platform services it calls ([localStorage], [JSON.parse],
    [JSON.stringify]).

    JavaScript strings are sequences of UTF-16 code units; a code unit is
    an [N].  Task lists are Rocq lists, records are a Rocq record with the
    three fields of the object literal in [addTodo]. *)

From Stdlib Require Import NArith ZArith DecimalZ.
From stdpp Require Import base option list gmap strings.

Set Warnings "-register-all".
Local Open Scope N_scope.

(** ** JavaScript strings *)

Abbreviation jsstring := (list N) (only parsing).

(** An ASCII literal as a JavaScript string (for ASCII text the bytes of the
    literal are its UTF-16 code units). *)
Fixpoint js (s : string) : jsstring :=
  match s with
  | EmptyString => []
  | String a r => Ascii.N_of_ascii a :: js r
  end.

(** [ToBoolean] on a string: only the empty string is falsy. *)
Definition truthy (s : jsstring) : bool :=
  match s with
  | [] => false
  | _ :: _ => true
  end.

(** The code units [String.prototype.trim] strips: WhiteSpace (TAB, VT, FF,
    SP, NBSP, ZWNBSP and the category Zs) and LineTerminator (LF, CR, LS,
    PS).  All of them lie in the basic plane, so trimming acts on code
    units. *)
Definition is_ws (c : N) : bool :=
  (9 <=? c) && (c <=? 13)
  || (c =? 32) || (c =? 160) || (c =? 5760)
  || (8192 <=? c) && (c <=? 8202)
  || (c =? 8232) || (c =? 8233) || (c =? 8239) || (c =? 8287)
  || (c =? 12288) || (c =? 65279).

Fixpoint trimStart (s : jsstring) : jsstring :=
  match s with
  | [] => []
  | c :: r => if is_ws c then trimStart r else s
  end.

Definition trimEnd (s : jsstring) : jsstring := rev (trimStart (rev s)).

Definition trim (s : jsstring) : jsstring := trimEnd (trimStart s).

(** A string is blank when it is empty or holds white space only. *)
Definition blank (s : jsstring) : bool := forallb is_ws s.

(** ** Task records *)

Module Todo.

Record t : Type := mk { id : jsstring; text : jsstring; completed : bool }.

(** [{ ...x, completed: c }] *)
Definition with_completed (x : t) (c : bool) : t :=
  {| id := id x; text := text x; completed := c |}.

(** [{ ...x, text: s }] *)
Definition with_text (x : t) (s : jsstring) : t :=
  {| id := id x; text := s; completed := completed x |}.

End Todo.

Abbreviation todo := Todo.t.

#[global] Instance todo_eq_dec : EqDecision todo.
Proof. solve_decision. Defined.

(** [x.id === id] on strings *)
Definition id_is (i : jsstring) (x : todo) : bool := bool_decide (Todo.id x = i).

Definition ids (l : list todo) : list jsstring := map Todo.id l.

(** ** The identifier source of [addTodo] *)

(** What the platform hands to one call of [addTodo]: [crypto.randomUUID]
    may be missing ([None]), otherwise it returns a string; [Date.now()] is
    an integer number of milliseconds. *)
Record Env : Type := {
  randomUUID : option jsstring;
  Date_now : Z
}.

Fixpoint digits (u : Decimal.uint) : jsstring :=
  match u with
  | Decimal.Nil => []
  | Decimal.D0 r => 48 :: digits r
  | Decimal.D1 r => 49 :: digits r
  | Decimal.D2 r => 50 :: digits r
  | Decimal.D3 r => 51 :: digits r
  | Decimal.D4 r => 52 :: digits r
  | Decimal.D5 r => 53 :: digits r
  | Decimal.D6 r => 54 :: digits r
  | Decimal.D7 r => 55 :: digits r
  | Decimal.D8 r => 56 :: digits r
  | Decimal.D9 r => 57 :: digits r
  end.

(** [String(n)] for an integer [n] in the range of [Date.now()]. *)
Definition String_of_int (n : Z) : jsstring :=
  match Z.to_int n with
  | Decimal.Pos u => digits u
  | Decimal.Neg u => 45 :: digits u
  end.

(** [crypto.randomUUID ? crypto.randomUUID() : String(Date.now())] *)
Definition new_id (env : Env) : jsstring :=
  match randomUUID env with
  | Some u => u
  | None => String_of_int (Date_now env)
  end.

(** ** The task list engine: the updaters given to [setTodos] *)

Definition addTodo (env : Env) (text : jsstring) (prev : list todo) : list todo :=
  let t := trim text in
  if negb (truthy t) then prev
  else
    let newTodo := {| Todo.id := new_id env; Todo.text := t; Todo.completed := false |} in
    newTodo :: prev.

Definition toggle (id : jsstring) (prev : list todo) : list todo :=
  map (fun x => if id_is id x then Todo.with_completed x (negb (Todo.completed x)) else x) prev.

Definition del (id : jsstring) (prev : list todo) : list todo :=
  List.filter (fun x => negb (id_is id x)) prev.

Definition edit (id : jsstring) (text : jsstring) (prev : list todo) : list todo :=
  map (fun x => if id_is id x then Todo.with_text x text else x) prev.

Definition clearCompleted (prev : list todo) : list todo :=
  List.filter (fun x => negb (Todo.completed x)) prev.

(** ** The views *)

Definition filtered (todos : list todo) (filter : jsstring) : list todo :=
  if bool_decide (filter = js "active") then
    List.filter (fun t => negb (Todo.completed t)) todos
  else if bool_decide (filter = js "completed") then
    List.filter (fun t => Todo.completed t) todos
  else todos.

Definition left (todos : list todo) : nat :=
  length (List.filter (fun t => negb (Todo.completed t)) todos).

(** ** The edit guard of [TodoItem]

    [commit] calls [onEdit] (which is [edit]) only when the trimmed draft is
    non-empty and differs from the current text. *)
Definition commit (x : todo) (draft : jsstring) (prev : list todo) : list todo :=
  let t := trim draft in
  if truthy t && negb (bool_decide (t = Todo.text x)) then edit (Todo.id x) t prev
  else prev.

(** ** JSON values

    What [JSON.parse] can return and what the hook hands to
    [JSON.stringify].  A number is kept as the lexeme it was read from (its
    IEEE value is outside this embedding; task records hold no number).  An
    object is its list of properties in insertion order. *)
Inductive json : Type :=
| JNull
| JBool (b : bool)
| JNum (lexeme : jsstring)
| JStr (s : jsstring)
| JArr (elems : list json)
| JObj (props : list (jsstring * json)).

(** The JavaScript value of a task record and of a task list. *)
Definition of_todo (x : todo) : json :=
  JObj [ (js "id", JStr (Todo.id x));
         (js "text", JStr (Todo.text x));
         (js "completed", JBool (Todo.completed x)) ].

Definition of_todos (l : list todo) : json := JArr (map of_todo l).

(** *** [JSON.stringify] *)

Definition hexdigit (d : N) : N := if d <? 10 then 48 + d else 87 + d.

(** [\uXXXX] with lower-case digits *)
Definition uescape (c : N) : jsstring :=
  [92; 117; hexdigit (c / 4096 mod 16); hexdigit (c / 256 mod 16);
   hexdigit (c / 16 mod 16); hexdigit (c mod 16)].

Definition is_high (c : N) : bool := (55296 <=? c) && (c <=? 56319).
Definition is_low (c : N) : bool := (56320 <=? c) && (c <=? 57343).

Definition escape_unit (c : N) : jsstring :=
  if c =? 8 then [92; 98]
  else if c =? 9 then [92; 116]
  else if c =? 10 then [92; 110]
  else if c =? 12 then [92; 102]
  else if c =? 13 then [92; 114]
  else if c =? 34 then [92; 34]
  else if c =? 92 then [92; 92]
  else if c <? 32 then uescape c
  else [c].

(** The body of [QuoteJSONString]: a surrogate pair is copied, a lone
    surrogate is escaped. *)
Fixpoint escape (s : jsstring) : jsstring :=
  match s with
  | [] => []
  | c :: r =>
    if is_high c then
      match r with
      | d :: r' => if is_low d then c :: d :: escape r' else uescape c ++ escape r
      | [] => uescape c
      end
    else if is_low c then uescape c ++ escape r
    else escape_unit c ++ escape r
  end.

Definition quote (s : jsstring) : jsstring := 34 :: escape s ++ [34].

Fixpoint join_comma (parts : list jsstring) : jsstring :=
  match parts with
  | [] => []
  | [p] => p
  | p :: ps => p ++ 44 :: join_comma ps
  end.

Fixpoint stringify (v : json) : jsstring :=
  match v with
  | JNull => js "null"
  | JBool true => js "true"
  | JBool false => js "false"
  | JNum lexeme => lexeme
  | JStr s => quote s
  | JArr elems => 91 :: join_comma (map stringify elems) ++ [93]
  | JObj props =>
    123 :: join_comma (map (fun kv => quote (fst kv) ++ 58 :: stringify (snd kv)) props) ++ [125]
  end.

(** *** [JSON.parse] *)

(** JSON white space: SP, TAB, LF, CR. *)
Definition json_ws (c : N) : bool := (c =? 32) || (c =? 9) || (c =? 10) || (c =? 13).

Fixpoint skip_ws (s : jsstring) : jsstring :=
  match s with
  | [] => []
  | c :: r => if json_ws c then skip_ws r else s
  end.

Definition is_digit (c : N) : bool := (48 <=? c) && (c <=? 57).

Definition hexval (c : N) : option N :=
  if is_digit c then Some (c - 48)
  else if (97 <=? c) && (c <=? 102) then Some (c - 87)
  else if (65 <=? c) && (c <=? 70) then Some (c - 55)
  else None.

Definition hex4 (a b c d : N) : option N :=
  match hexval a, hexval b, hexval c, hexval d with
  | Some x, Some y, Some z, Some w => Some (4096 * x + 256 * y + 16 * z + w)
  | _, _, _, _ => None
  end.

(** The character after a backslash, other than [u]. *)
Definition unescape (e : N) : option N :=
  if e =? 34 then Some 34
  else if e =? 92 then Some 92
  else if e =? 47 then Some 47
  else if e =? 98 then Some 8
  else if e =? 102 then Some 12
  else if e =? 110 then Some 10
  else if e =? 114 then Some 13
  else if e =? 116 then Some 9
  else None.

Definition cons_fst (c : N) (p : jsstring * jsstring) : jsstring * jsstring :=
  (c :: fst p, snd p).

(** The characters of a string literal after its opening quote, up to and
    including the closing quote; returns the string and the input left. *)
Fixpoint parse_chars (s : jsstring) : option (jsstring * jsstring) :=
  match s with
  | [] => None
  | c :: r =>
    if c =? 34 then Some ([], r)
    else if c =? 92 then
      match r with
      | [] => None
      | e :: r1 =>
        if e =? 117 then
          match r1 with
          | a :: b :: c' :: d :: r2 =>
            match hex4 a b c' d with
            | Some u => cons_fst u <$> parse_chars r2
            | None => None
            end
          | _ => None
          end
        else
          match unescape e with
          | Some u => cons_fst u <$> parse_chars r1
          | None => None
          end
      end
    else if c <? 32 then None
    else cons_fst c <$> parse_chars r
  end.

(** The longest prefix of digits and what follows it. *)
Fixpoint span_digits (s : jsstring) : jsstring * jsstring :=
  match s with
  | [] => ([], [])
  | c :: r => if is_digit c then cons_fst c (span_digits r) else ([], s)
  end.

(** [int]: a single [0], or a non-zero digit followed by digits. *)
Definition parse_int (s : jsstring) : option (jsstring * jsstring) :=
  match s with
  | [] => None
  | c :: r =>
    if c =? 48 then Some ([48], r)
    else if is_digit c then Some (cons_fst c (span_digits r))
    else None
  end.

(** [frac]: nothing, or a dot followed by at least one digit. *)
Definition parse_frac (s : jsstring) : option (jsstring * jsstring) :=
  match s with
  | c :: r =>
    if c =? 46 then
      match span_digits r with
      | ([], _) => None
      | (ds, r') => Some (46 :: ds, r')
      end
    else Some ([], s)
  | [] => Some ([], s)
  end.

(** [exp]: nothing, or [e]/[E], an optional sign and at least one digit. *)
Definition parse_exp (s : jsstring) : option (jsstring * jsstring) :=
  match s with
  | c :: r =>
    if (c =? 101) || (c =? 69) then
      let '(sign, r1) :=
        match r with
        | g :: r' => if (g =? 43) || (g =? 45) then ([g], r') else ([], r)
        | [] => ([], r)
        end in
      match span_digits r1 with
      | ([], _) => None
      | (ds, r2) => Some (c :: sign ++ ds, r2)
      end
    else Some ([], s)
  | [] => Some ([], s)
  end.

Definition parse_number (s : jsstring) : option (jsstring * jsstring) :=
  let '(sign, s1) :=
    match s with
    | c :: r => if c =? 45 then ([45], r) else ([], s)
    | [] => ([], s)
    end in
  '(i, s2) ← parse_int s1;
  '(f, s3) ← parse_frac s2;
  '(e, s4) ← parse_exp s3;
  Some (sign ++ i ++ f ++ e, s4).

(** [strip_prefix p s] is what is left of [s] after its prefix [p]. *)
Fixpoint strip_prefix (p s : jsstring) : option jsstring :=
  match p, s with
  | [], _ => Some s
  | a :: p', b :: s' => if a =? b then strip_prefix p' s' else None
  | _ :: _, [] => None
  end.

(** Property definition on an object under construction: an existing key
    keeps its place and takes the new value, a new key goes last. *)
Fixpoint obj_set (k : jsstring) (v : json) (props : list (jsstring * json))
  : list (jsstring * json) :=
  match props with
  | [] => [(k, v)]
  | (k', v') :: r =>
    if bool_decide (k' = k) then (k', v) :: r else (k', v') :: obj_set k v r
  end.

(** Recursive descent over the JSON grammar.  [fuel] bounds the number of
    nested calls; every call consumes input, so twice the length of the text
    is enough ([parse_fuel_enough]). *)
Fixpoint parse_value (fuel : nat) (s : jsstring) : option (json * jsstring) :=
  match fuel with
  | O => None
  | S f =>
    match skip_ws s with
    | [] => None
    | c :: r =>
      if c =? 123 then
        match skip_ws r with
        | [] => None
        | c1 :: r1 => if c1 =? 125 then Some (JObj [], r1) else parse_members f [] (c1 :: r1)
        end
      else if c =? 91 then
        match skip_ws r with
        | [] => None
        | c1 :: r1 => if c1 =? 93 then Some (JArr [], r1) else parse_elements f [] (c1 :: r1)
        end
      else if c =? 34 then
        '(str, r1) ← parse_chars r; Some (JStr str, r1)
      else if c =? 116 then
        r1 ← strip_prefix (js "true") (c :: r); Some (JBool true, r1)
      else if c =? 102 then
        r1 ← strip_prefix (js "false") (c :: r); Some (JBool false, r1)
      else if c =? 110 then
        r1 ← strip_prefix (js "null") (c :: r); Some (JNull, r1)
      else
        '(lexeme, r1) ← parse_number (c :: r); Some (JNum lexeme, r1)
    end
  end
with parse_elements (fuel : nat) (acc : list json) (s : jsstring)
  : option (json * jsstring) :=
  match fuel with
  | O => None
  | S f =>
    match parse_value f s with
    | None => None
    | Some (v, r) =>
      match skip_ws r with
      | [] => None
      | c :: r1 =>
        if c =? 44 then parse_elements f (acc ++ [v]) r1
        else if c =? 93 then Some (JArr (acc ++ [v]), r1)
        else None
      end
    end
  end
with parse_members (fuel : nat) (acc : list (jsstring * json)) (s : jsstring)
  : option (json * jsstring) :=
  match fuel with
  | O => None
  | S f =>
    match skip_ws s with
    | [] => None
    | q :: r =>
      if q =? 34 then
        match parse_chars r with
        | None => None
        | Some (k, r1) =>
          match skip_ws r1 with
          | [] => None
          | c :: r2 =>
            if c =? 58 then
              match parse_value f r2 with
              | None => None
              | Some (v, r3) =>
                match skip_ws r3 with
                | [] => None
                | c' :: r4 =>
                  if c' =? 44 then parse_members f (obj_set k v acc) r4
                  else if c' =? 125 then Some (JObj (obj_set k v acc), r4)
                  else None
                end
              end
            else None
          end
        end
      else None
    end
  end.

(** ** Completions: values and exceptions *)

Inductive exn : Type := SyntaxError | SecurityError | QuotaExceededError.

Inductive completion (A : Type) : Type :=
| Normal (a : A)
| Throw (e : exn).
Arguments Normal {A} a.
Arguments Throw {A} e.

Definition bind {A B : Type} (c : completion A) (k : A -> completion B) : completion B :=
  match c with
  | Normal a => k a
  | Throw e => Throw e
  end.

(** [try { body } catch { handler }] *)
Definition try_catch {A : Type} (body : completion A) (handler : completion A) : completion A :=
  match body with
  | Normal a => Normal a
  | Throw _ => handler
  end.

(** [JSON.parse(text)]: one value, optional white space around it, nothing
    else; a [SyntaxError] otherwise. *)
Definition JSON_parse (text : jsstring) : completion json :=
  match parse_value (S (2 * length text)) text with
  | Some (v, r) =>
    match skip_ws r with
    | [] => Normal v
    | _ :: _ => Throw SyntaxError
    end
  | None => Throw SyntaxError
  end.

(** [JSON.stringify(value)] on a JSON value (no cycle, no BigInt: it does
    not throw). *)
Definition JSON_stringify (v : json) : completion jsstring := Normal (stringify v).

(** ** [localStorage] *)

(** The storage area of the origin: its items, whether access to it is
    denied (every access then throws a [SecurityError]) and how many code
    units it may hold. *)
Record Storage : Type := {
  items : gmap (list N) (list N);
  denied : bool;
  quota : N
}.

Definition usage (m : gmap (list N) (list N)) : N :=
  map_fold (fun k v acc => N.of_nat (length k) + N.of_nat (length v) + acc) 0 m.

Definition getItem (st : Storage) (key : jsstring) : completion (option jsstring) :=
  if denied st then Throw SecurityError else Normal (items st !! key).

Definition setItem (st : Storage) (key value : jsstring) : completion Storage :=
  if denied st then Throw SecurityError
  else
    let items' := <[key := value]> (items st) in
    if quota st <? usage items' then Throw QuotaExceededError
    else Normal {| items := items'; denied := denied st; quota := quota st |}.

(** ** The [useLocalStorage] hook *)

(** The initialiser of [useState], which the specification calls [load]:
    the value the hook starts with.  [raw] is [null] ([None], falsy) or a
    string. *)
Definition useLocalStorage_load (st : Storage) (key : jsstring) (initialValue : json)
  : completion json :=
  try_catch
    (bind (getItem st key) (fun raw =>
       match raw with
       | Some r => if truthy r then JSON_parse r else Normal initialValue
       | None => Normal initialValue
       end))
    (Normal initialValue).

(** The effect run after each change of [value], which the specification
    calls [save]: the storage it leaves. *)
Definition useLocalStorage_save (st : Storage) (key : jsstring) (value : json)
  : completion Storage :=
  try_catch
    (bind (JSON_stringify value) (fun text => setItem st key text))
    (Normal st).

(** The key and the default of [App]. *)
Definition todos_key : jsstring := js "todos-v1".
Definition no_todos : json := JArr [].

(** ** The engine as a reducer, and the properties the specification names *)

(** The five operation kinds of the engine. *)
Inductive op : Type :=
| Add (env : Env) (text : jsstring)
| Toggle (id : jsstring)
| Edit (id : jsstring) (text : jsstring)
| Delete (id : jsstring)
| ClearCompleted.

Definition apply_op (o : op) (l : list todo) : list todo :=
  match o with
  | Add env text => addTodo env text l
  | Toggle id => toggle id l
  | Edit id text => edit id text l
  | Delete id => del id l
  | ClearCompleted => clearCompleted l
  end.

(** "[text] is never stored as an empty or whitespace-only string" *)
Definition texts_ok (l : list todo) : Prop :=
  Forall (fun x => blank (Todo.text x) = false) l.

(** The operations whose text argument, if any, is not blank. *)
Definition op_ok (o : op) : Prop :=
  match o with
  | Edit _ text => blank text = false
  | _ => True
  end.

(** The number of records of [l] that carry [id]. *)
Definition occurrences (id : jsstring) (l : list todo) : nat :=
  length (List.filter (id_is id) l).

(** What the specification says of [add] on a text that is not blank. *)
Definition add_as_specified (env : Env) (l : list todo) (s : jsstring) : Prop :=
  exists x, addTodo env s l = x :: l
    /\ Todo.text x = trim s /\ Todo.completed x = false /\ Todo.id x ∉ ids l.

(** What the specification says of the length after [delete]. *)
Definition del_as_specified (id : jsstring) (l : list todo) : Prop :=
  length (del id l) = (if bool_decide (id ∈ ids l) then length l - 1 else length l)%nat.

(** A stored value has the shape of a task list. *)
Definition compatible (v : json) : Prop := exists l, v = of_todos l.

(** What the specification says of [load] on a stored text that parses to
    a value of another shape. *)
Definition load_rejects_other_shapes (st : Storage) (key : jsstring) : Prop :=
  forall raw v,
    getItem st key = Normal (Some raw) -> JSON_parse raw = Normal v -> ~ compatible v ->
    useLocalStorage_load st key no_todos = Normal no_todos.

(** A storage area that holds one item. *)
Definition storage_with (key value : jsstring) : Storage :=
  {| items := {[ key := value ]}; denied := false; quota := 5000000 |}.

(** ** The first run of the hook

    On mount the initialiser of [useState] runs, then the effect: the value
    just read is written back under the key. *)
Definition useLocalStorage_mount (st : Storage) (key : jsstring) (initialValue : json)
  : completion (json * Storage) :=
  bind (useLocalStorage_load st key initialValue) (fun value =>
  bind (useLocalStorage_save st key value) (fun st' => Normal (value, st'))).

(** ** The [App] component: its state and its event handlers *)

(** An [Add] whose identifier is not yet used in the list; the other
    operations take no identifier from outside. *)
Definition op_fresh (o : op) (l : list todo) : Prop :=
  match o with
  | Add env _ => new_id env ∉ ids l
  | _ => True
  end.

(** [filtered.length === 0]: the list shows the "No items" line. *)
Definition shows_placeholder (todos : list todo) (filter : jsstring) : bool :=
  (length (filtered todos filter) =? 0)%nat.

Module App.

(** The three [useState] cells of [App]. *)
Record state : Type := { todos : list todo; input : jsstring; filter : jsstring }.

(** The pills of [Toolbar]. *)
Definition tabs : list jsstring := [js "all"; js "active"; js "completed"].

(** The state [App] starts with when the hook hands it the list [l]. *)
Definition init (l : list todo) : state :=
  {| todos := l; input := []; filter := js "all" |}.

(** [addTodo(text)] with both of its writes: [setTodos] and [setInput("")]. *)
Definition addTodo (env : Env) (text : jsstring) (st : state) : state :=
  let t := trim text in
  if negb (truthy t) then st
  else {| todos := addTodo env text (todos st); input := []; filter := filter st |}.

(** The items on screen. *)
Definition visible (st : state) : list todo := filtered (todos st) (filter st).

Definition set_todos (f : list todo -> list todo) (st : state) : state :=
  {| todos := f (todos st); input := input st; filter := filter st |}.

(** What the user can do: type in the new-task field, press a key in it,
    click Add, click the [i]-th pill, click "Clear completed", and on the
    [i]-th item on screen toggle it, delete it or commit a draft. *)
Inductive event : Type :=
| Change (value : jsstring)
| KeyDown (key : jsstring) (env : Env)
| ClickAdd (env : Env)
| ClickPill (i : nat)
| ClickClear
| ItemToggle (i : nat)
| ItemDelete (i : nat)
| ItemCommit (i : nat) (draft : jsstring).

Definition handle (e : event) (st : state) : state :=
  match e with
  | Change value => {| todos := todos st; input := value; filter := filter st |}
  | KeyDown key env =>
    if bool_decide (key = js "Enter") then addTodo env (input st) st else st
  | ClickAdd env => addTodo env (input st) st
  | ClickPill i =>
    match tabs !! i with
    | Some f => {| todos := todos st; input := input st; filter := f |}
    | None => st
    end
  | ClickClear => set_todos clearCompleted st
  | ItemToggle i =>
    match visible st !! i with
    | Some x => set_todos (toggle (Todo.id x)) st
    | None => st
    end
  | ItemDelete i =>
    match visible st !! i with
    | Some x => set_todos (del (Todo.id x)) st
    | None => st
    end
  | ItemCommit i draft =>
    match visible st !! i with
    | Some x => set_todos (commit x draft) st
    | None => st
    end
  end.

Definition run (es : list event) (st : state) : state :=
  fold_left (fun s e => handle e s) es st.

End App.

(** [aria-pressed={filter === f}] for each pill of [Toolbar], in order. *)
Definition Toolbar_pressed (filter : jsstring) : list bool :=
  map (fun f => bool_decide (filter = f)) App.tabs.

(** * Properties *)

(** ** Strings *)

Lemma truthy_nil (s : jsstring) : truthy s = false <-> s = [].
Proof. destruct s; simpl; split; congruence. Qed.

Lemma trimStart_app_keep (l : jsstring) (c : N) :
  is_ws c = false -> trimStart (l ++ [c]) = trimStart l ++ [c].
Proof.
  intros Hc. induction l as [|d l IH]; simpl.
  - now rewrite Hc.
  - destruct (is_ws d); [exact IH | reflexivity].
Qed.

Lemma trimStart_head (s : jsstring) :
  trimStart s = [] \/ exists c r, trimStart s = c :: r /\ is_ws c = false.
Proof.
  induction s as [|c s IH]; simpl; [now left|].
  destruct (is_ws c) eqn:E; [exact IH | right; eauto].
Qed.

(** A trimmed string is empty or starts with a character that is not white
    space. *)
Lemma trim_head (s : jsstring) :
  trim s = [] \/ exists c r, trim s = c :: r /\ is_ws c = false.
Proof.
  unfold trim, trimEnd.
  destruct (trimStart_head s) as [-> | (c & r & -> & Hc)]; [now left|].
  right. exists c, (rev (trimStart (rev r))). split; [|exact Hc].
  simpl rev at 2. rewrite trimStart_app_keep by exact Hc.
  now rewrite rev_app_distr.
Qed.

Lemma trim_not_blank (s : jsstring) : trim s <> [] -> blank (trim s) = false.
Proof.
  intros Hne. destruct (trim_head s) as [H | (c & r & -> & Hc)]; [contradiction|].
  simpl. now rewrite Hc.
Qed.

Lemma trimStart_split (s : jsstring) :
  exists a, s = a ++ trimStart s /\ blank a = true.
Proof.
  induction s as [|c s (a & Hs & Ha)]; simpl.
  - now exists [].
  - destruct (is_ws c) eqn:E.
    + exists (c :: a). simpl. rewrite E, Ha. split; [congruence | reflexivity].
    + now exists [].
Qed.

Lemma blank_rev (a : jsstring) : blank (rev a) = blank a.
Proof.
  unfold blank. induction a as [|c a IH]; simpl; [reflexivity|].
  rewrite forallb_app, IH. simpl. rewrite andb_true_r. apply andb_comm.
Qed.

(** [trim] removes a blank prefix and a blank suffix, and nothing else. *)
Lemma trim_split (s : jsstring) :
  exists a b, s = a ++ trim s ++ b /\ blank a = true /\ blank b = true.
Proof.
  destruct (trimStart_split s) as (a & Hs & Ha).
  destruct (trimStart_split (rev (trimStart s))) as (b & Hr & Hb).
  exists a, (rev b). unfold trim, trimEnd. repeat split.
  - rewrite <- rev_app_distr, <- Hr, rev_involutive. exact Hs.
  - exact Ha.
  - now rewrite blank_rev.
Qed.

(** ** Filtering *)

Section Filter.
Context {A : Type} (f : A -> bool).

Lemma filter_sublist (l : list A) : sublist (List.filter f l) l.
Proof.
  induction l as [|x l IH]; simpl; [constructor|].
  destruct (f x); now constructor.
Qed.

Lemma filter_all (l : list A) : Forall (fun x => f x = true) (List.filter f l).
Proof.
  induction l as [|x l IH]; simpl; [constructor|].
  destruct (f x) eqn:E; [constructor|]; assumption.
Qed.

Lemma filter_greatest (l k : list A) :
  sublist k l -> Forall (fun x => f x = true) k -> sublist k (List.filter f l).
Proof.
  induction 1 as [|x k l Hs IH|x k l Hs IH]; intros Hk; simpl.
  - constructor.
  - inversion Hk as [|? ? Hx Hk']; subst. rewrite Hx. constructor. now apply IH.
  - destruct (f x); [constructor|]; now apply IH.
Qed.

Lemma filter_id (l : list A) : Forall (fun x => f x = true) l -> List.filter f l = l.
Proof.
  induction 1 as [|x l Hx Hl IH]; simpl; [reflexivity|]. now rewrite Hx, IH.
Qed.

Lemma filter_split_length (l : list A) :
  (length (List.filter f l) + length (List.filter (fun x => negb (f x)) l) = length l)%nat.
Proof.
  induction l as [|x l IH]; simpl; [reflexivity|].
  destruct (f x); simpl; lia.
Qed.

Lemma filter_split_perm (l : list A) :
  List.filter (fun x => negb (f x)) l ++ List.filter f l ≡ₚ l.
Proof.
  induction l as [|x l IH]; simpl; [reflexivity|].
  destruct (f x); simpl.
  - rewrite <- Permutation_middle. now constructor.
  - now constructor.
Qed.

Lemma filter_keeps_Forall (P : A -> Prop) (l : list A) :
  Forall P l -> Forall P (List.filter f l).
Proof.
  induction 1 as [|x l Hx Hl IH]; simpl; [constructor|].
  destruct (f x); [constructor|]; assumption.
Qed.

End Filter.

(** ** The engine *)

Lemma id_is_true (i : jsstring) (x : todo) : id_is i x = true <-> Todo.id x = i.
Proof. unfold id_is. apply bool_decide_eq_true. Qed.

Lemma id_is_false (i : jsstring) (x : todo) : id_is i x = false <-> Todo.id x <> i.
Proof. unfold id_is. apply bool_decide_eq_false. Qed.

Lemma occurrences_absent (i : jsstring) (l : list todo) :
  i ∉ ids l -> occurrences i l = 0%nat.
Proof.
  unfold occurrences, ids. induction l as [|x l IH]; simpl; intros Hn; [reflexivity|].
  rewrite not_elem_of_cons in Hn. destruct Hn as [Hx Hl].
  assert (id_is i x = false) as -> by (apply id_is_false; congruence).
  now apply IH.
Qed.

Lemma occurrences_unique (i : jsstring) (l : list todo) :
  NoDup (ids l) -> i ∈ ids l -> occurrences i l = 1%nat.
Proof.
  unfold occurrences, ids. induction l as [|x l IH]; simpl; intros Hnd Hin.
  - now apply elem_of_nil in Hin.
  - apply NoDup_cons in Hnd as [Hx Hnd].
    destruct (id_is i x) eqn:E; simpl.
    + apply id_is_true in E. subst i. f_equal. now apply occurrences_absent.
    + apply id_is_false in E. apply elem_of_cons in Hin as [Hin | Hin]; [congruence|].
      now apply IH.
Qed.

(** C1 (as amended): on a text whose trimmed form is empty [addTodo] returns
    the list unchanged; otherwise it returns the list with one record put in
    front, whose text is the trimmed text, whose [completed] is false and
    whose id is the identifier the platform supplies
    ([crypto.randomUUID()], or [String(Date.now())] without it); that id is
    absent from the list whenever the supplied identifier is. *)
Theorem addTodo_spec (env : Env) (l : list todo) (s : jsstring) :
  (trim s = [] -> addTodo env s l = l) /\
  (trim s <> [] ->
   exists x, addTodo env s l = x :: l
     /\ length (addTodo env s l) = S (length l)
     /\ Todo.text x = trim s /\ Todo.completed x = false
     /\ Todo.id x = new_id env
     /\ (new_id env ∉ ids l -> Todo.id x ∉ ids l)).
Proof.
  unfold addTodo. split; intros H.
  - now rewrite H.
  - destruct (trim s) as [|c t] eqn:E; [contradiction|]. simpl.
    eexists. repeat split. auto.
Qed.

Lemma addTodo_spec_witness :
  exists x, addTodo {| randomUUID := Some (js "6f1c"); Date_now := 0 |} (js "  Buy milk ") [] = [x]
    /\ Todo.text x = js "Buy milk" /\ Todo.id x = js "6f1c".
Proof.
  destruct (addTodo_spec {| randomUUID := Some (js "6f1c"); Date_now := 0 |} [] (js "  Buy milk "))
    as [_ H].
  destruct H as (x & Hx & _ & Ht & _ & Hi & _); [vm_compute; discriminate|].
  exists x. repeat split; assumption.
Defined.

(** C1 (as stated) fails: without [crypto.randomUUID] the id is the clock
    reading, and a list that already holds a record made at that reading
    gets a second record with the same id. *)
Lemma addTodo_id_clash :
  trim (js "Walk dog") <> [] /\
  ~ add_as_specified
      {| randomUUID := None; Date_now := 1700000000000 |}
      [ {| Todo.id := js "1700000000000"; Todo.text := js "Buy milk"; Todo.completed := false |} ]
      (js "Walk dog").
Proof.
  split; [vm_compute; discriminate|].
  intros (x & Hx & _ & _ & Hid). apply Hid. clear Hid.
  vm_compute in Hx. injection Hx as <-. vm_compute. left.
Qed.

(** C2: [toggle] keeps the length and the positions; at every position the
    record keeps its id and text, its [completed] is negated when its id
    matches and the record is untouched otherwise; with no matching record
    the list is returned as it was. *)
Theorem toggle_frame (id : jsstring) (l : list todo) :
  length (toggle id l) = length l /\
  (forall (i : nat) (x : todo), l !! i = Some x ->
     toggle id l !! i =
       Some (if bool_decide (Todo.id x = id)
             then {| Todo.id := Todo.id x; Todo.text := Todo.text x;
                     Todo.completed := negb (Todo.completed x) |}
             else x)) /\
  ((forall x, x ∈ l -> Todo.id x <> id) -> toggle id l = l).
Proof.
  unfold toggle. split; [apply length_map|]. split.
  - intros i x Hx. rewrite list_lookup_fmap_Some_2 with (x := x); [|exact Hx]; reflexivity.
  - intros Hno. induction l as [|x l IH]; simpl; [reflexivity|].
    assert (id_is id x = false) as ->
      by (apply id_is_false, Hno; left).
    f_equal. apply IH. intros y Hy. apply Hno. now right.
Qed.

Lemma toggle_frame_witness :
  toggle (js "b") [ {| Todo.id := js "a"; Todo.text := js "Buy milk"; Todo.completed := true |} ]
  = [ {| Todo.id := js "a"; Todo.text := js "Buy milk"; Todo.completed := true |} ].
Proof.
  apply (toggle_frame (js "b")
           [ {| Todo.id := js "a"; Todo.text := js "Buy milk"; Todo.completed := true |} ]).
  intros x Hx. apply list_elem_of_singleton in Hx. subst x. vm_compute. discriminate.
Defined.

(** C3: toggling the same id twice gives back the list. *)
Theorem toggle_toggle (id : jsstring) (l : list todo) : toggle id (toggle id l) = l.
Proof.
  unfold toggle. induction l as [|x l IH]; simpl; [reflexivity|].
  f_equal; [|exact IH].
  destruct (id_is id x) eqn:E.
  - unfold id_is in *. simpl. rewrite E. destruct x as [i t c]. unfold Todo.with_completed.
    simpl. now rewrite negb_involutive.
  - now rewrite E.
Qed.

(** C4 (as amended): [del] removes every record that carries the id, so the
    length drops by the number of such records: by exactly one when the ids
    of the list are distinct and the id is present, by nothing when it is
    absent.  The result is a sublist of the list (same records, same
    relative order), holds no record with the id, and keeps every record
    with another id. *)
Theorem del_spec (id : jsstring) (l : list todo) :
  length (del id l) = (length l - occurrences id l)%nat /\
  (NoDup (ids l) -> id ∈ ids l -> length (del id l) = (length l - 1)%nat) /\
  (id ∉ ids l -> del id l = l) /\
  sublist (del id l) l /\
  Forall (fun x => Todo.id x <> id) (del id l) /\
  (forall k, sublist k l -> Forall (fun x => Todo.id x <> id) k -> sublist k (del id l)).
Proof.
  assert (Hlen : length (del id l) = (length l - occurrences id l)%nat).
  { unfold del, occurrences. pose proof (filter_split_length (id_is id) l). lia. }
  repeat split.
  - exact Hlen.
  - intros Hnd Hin. now rewrite Hlen, occurrences_unique.
  - intros Hn. unfold del. apply filter_id. apply Forall_forall. intros x Hx.
    apply negb_true_iff, id_is_false. intros <-. apply Hn.
    unfold ids. now apply list_elem_of_fmap_2.
  - apply filter_sublist.
  - unfold del. eapply Forall_impl; [apply filter_all|].
    intros x Hx. simpl in Hx. now apply id_is_false, negb_true_iff.
  - intros k Hk Hall. apply filter_greatest; [exact Hk|].
    eapply Forall_impl; [exact Hall|]. intros x Hx. simpl.
    now apply negb_true_iff, id_is_false.
Qed.

Lemma del_spec_witness :
  length (del (js "a")
            [ {| Todo.id := js "a"; Todo.text := js "Buy milk"; Todo.completed := false |};
              {| Todo.id := js "b"; Todo.text := js "Walk dog"; Todo.completed := true |} ])
  = 1%nat.
Proof.
  apply (del_spec (js "a")
           [ {| Todo.id := js "a"; Todo.text := js "Buy milk"; Todo.completed := false |};
             {| Todo.id := js "b"; Todo.text := js "Walk dog"; Todo.completed := true |} ]).
  - apply (bool_decide_unpack _). vm_compute. reflexivity.
  - vm_compute. left.
Defined.

(** C4 (as stated) fails on a list where two records share an id: both go,
    and the length drops by two. *)
Lemma del_removes_all_matches :
  ~ del_as_specified (js "1700000000000")
      [ {| Todo.id := js "1700000000000"; Todo.text := js "Walk dog"; Todo.completed := false |};
        {| Todo.id := js "1700000000000"; Todo.text := js "Buy milk"; Todo.completed := false |} ].
Proof.
  unfold del_as_specified. rewrite bool_decide_eq_true_2 by (vm_compute; left).
  vm_compute. discriminate.
Qed.

(** C5: [clearCompleted] returns a sublist of the list (records unchanged,
    relative order kept) made of records that are not completed, and every
    sublist of the list made of such records is within it: it is exactly
    the records that are not completed. *)
Theorem clearCompleted_spec (l : list todo) :
  sublist (clearCompleted l) l /\
  Forall (fun x => Todo.completed x = false) (clearCompleted l) /\
  (forall k, sublist k l -> Forall (fun x => Todo.completed x = false) k ->
     sublist k (clearCompleted l)).
Proof.
  unfold clearCompleted. repeat split.
  - apply filter_sublist.
  - eapply Forall_impl; [apply filter_all|]. intros x Hx. simpl in Hx.
    now apply negb_true_iff.
  - intros k Hk Hall. apply filter_greatest; [exact Hk|].
    eapply Forall_impl; [exact Hall|]. intros x Hx. simpl. now apply negb_true_iff.
Qed.

(** C6: the active view and the completed view are sublists of the list,
    together they are a permutation of it, no record is in both, and the
    view under "all" is the list. *)
Theorem filtered_partition (l : list todo) :
  filtered l (js "active") ++ filtered l (js "completed") ≡ₚ l /\
  sublist (filtered l (js "active")) l /\
  sublist (filtered l (js "completed")) l /\
  (forall x, x ∈ filtered l (js "active") -> x ∉ filtered l (js "completed")) /\
  filtered l (js "all") = l.
Proof.
  unfold filtered.
  rewrite bool_decide_eq_true_2 by reflexivity.
  rewrite (bool_decide_eq_false_2 (js "completed" = js "active")) by (vm_compute; discriminate).
  rewrite bool_decide_eq_true_2 by reflexivity.
  rewrite (bool_decide_eq_false_2 (js "all" = js "active")) by (vm_compute; discriminate).
  rewrite (bool_decide_eq_false_2 (js "all" = js "completed")) by (vm_compute; discriminate).
  repeat split.
  - apply filter_split_perm.
  - apply filter_sublist.
  - apply filter_sublist.
  - intros x Ha Hc.
    apply list_elem_of_In, filter_In in Ha as [_ Ha].
    apply list_elem_of_In, filter_In in Hc as [_ Hc].
    rewrite Hc in Ha. discriminate.
Qed.

(** C10: under any filter other than "active" and "completed" the view is
    the whole list. *)
Theorem filtered_default (l : list todo) (filter : jsstring) :
  filter <> js "active" -> filter <> js "completed" -> filtered l filter = l.
Proof.
  intros Ha Hc. unfold filtered.
  now rewrite (bool_decide_eq_false_2 _ Ha), (bool_decide_eq_false_2 _ Hc).
Qed.

Lemma filtered_default_witness :
  filtered [ {| Todo.id := js "a"; Todo.text := js "Buy milk"; Todo.completed := true |} ]
           (js "done")
  = [ {| Todo.id := js "a"; Todo.text := js "Buy milk"; Todo.completed := true |} ].
Proof.
  apply (filtered_default
           [ {| Todo.id := js "a"; Todo.text := js "Buy milk"; Todo.completed := true |} ]
           (js "done")); vm_compute; discriminate.
Defined.

Lemma texts_ok_edit (id text : jsstring) (l : list todo) :
  blank text = false -> texts_ok l -> texts_ok (edit id text l).
Proof.
  intros Ht Hl. unfold texts_ok, edit. apply Forall_fmap.
  eapply Forall_impl; [exact Hl|]. intros x Hx. simpl.
  destruct (id_is id x); [exact Ht | exact Hx].
Qed.

(** C9 (as amended): the empty list has no blank text, and [addTodo],
    [toggle], [del] and [clearCompleted] keep that for every input; [edit]
    keeps it when the text it is given is not blank, which is what [commit],
    its only caller, passes: [commit] keeps it for every draft. *)
Theorem texts_ok_preserved :
  texts_ok [] /\
  (forall o l, op_ok o -> texts_ok l -> texts_ok (apply_op o l)) /\
  (forall x draft l, texts_ok l -> texts_ok (commit x draft l)).
Proof.
  split; [constructor|]. split.
  - intros o l Ho Hl. destruct o as [env s|id|id s|id|]; simpl in *.
    + unfold addTodo. destruct (truthy (trim s)) eqn:E; simpl; [|exact Hl].
      constructor; [|exact Hl]. simpl. apply trim_not_blank.
      intros Hnil. rewrite Hnil in E. discriminate.
    + unfold texts_ok, toggle. apply Forall_fmap.
      eapply Forall_impl; [exact Hl|]. intros x Hx. simpl.
      destruct (id_is id x); exact Hx.
    + now apply texts_ok_edit.
    + now apply filter_keeps_Forall.
    + now apply filter_keeps_Forall.
  - intros x draft l Hl. unfold commit.
    destruct (truthy (trim draft)) eqn:E; simpl; [|exact Hl].
    destruct (bool_decide (trim draft = Todo.text x)); simpl; [exact Hl|].
    apply texts_ok_edit; [|exact Hl]. apply trim_not_blank.
    intros Hnil. rewrite Hnil in E. discriminate.
Qed.

Lemma texts_ok_preserved_witness :
  texts_ok (apply_op (Edit (js "a") (js "Walk dog"))
              [ {| Todo.id := js "a"; Todo.text := js "Buy milk"; Todo.completed := false |} ]).
Proof.
  apply texts_ok_preserved.
  - vm_compute. reflexivity.
  - repeat constructor.
Defined.

(** C9 (as stated) fails: [edit] stores the text it is given as it is, so
    the empty text reaches the record. *)
Lemma edit_stores_blank_text :
  texts_ok [ {| Todo.id := js "a"; Todo.text := js "Buy milk"; Todo.completed := false |} ] /\
  ~ texts_ok (apply_op (Edit (js "a") [])
                [ {| Todo.id := js "a"; Todo.text := js "Buy milk"; Todo.completed := false |} ]).
Proof.
  split; [repeat constructor|].
  intros H. vm_compute in H. inversion H as [|? ? Hx _]. discriminate Hx.
Qed.

(** ** [JSON.stringify] and [JSON.parse] *)

(** Case analysis on the comparisons of code units in the goal. *)
Ltac unit_cases :=
  repeat match goal with
  | |- context [N.eqb ?a ?b] => destruct (N.eqb_spec a b)
  | |- context [N.leb ?a ?b] => destruct (N.leb_spec a b)
  | |- context [N.ltb ?a ?b] => destruct (N.ltb_spec a b)
  end; simpl; try lia; try (exfalso; lia).

Lemma hexval_hexdigit (d : N) : d < 16 -> hexval (hexdigit d) = Some d.
Proof.
  intros Hd. unfold hexval, hexdigit, is_digit.
  destruct (N.ltb_spec d 10).
  - unit_cases. f_equal. lia.
  - unit_cases. f_equal. lia.
Qed.

Lemma hex_digits_value (c : N) :
  c < 65536 ->
  4096 * (c / 4096 mod 16) + 256 * (c / 256 mod 16) + 16 * (c / 16 mod 16) + c mod 16 = c.
Proof.
  intros Hc.
  replace (c / 4096) with (c / 16 / 16 / 16) by (rewrite !N.Div0.div_div; reflexivity).
  replace (c / 256) with (c / 16 / 16) by (rewrite !N.Div0.div_div; reflexivity).
  pose proof (N.div_mod c 16 ltac:(discriminate)).
  pose proof (N.div_mod (c / 16) 16 ltac:(discriminate)).
  pose proof (N.div_mod (c / 16 / 16) 16 ltac:(discriminate)).
  pose proof (N.div_mod (c / 16 / 16 / 16) 16 ltac:(discriminate)).
  pose proof (N.mod_lt c 16 ltac:(discriminate)).
  pose proof (N.mod_lt (c / 16) 16 ltac:(discriminate)).
  pose proof (N.mod_lt (c / 16 / 16) 16 ltac:(discriminate)).
  pose proof (N.mod_lt (c / 16 / 16 / 16) 16 ltac:(discriminate)).
  generalize dependent (c mod 16). generalize dependent (c / 16 mod 16).
  generalize dependent (c / 16 / 16 mod 16).
  generalize dependent (c / 16 / 16 / 16 mod 16).
  generalize dependent (c / 16 / 16 / 16 / 16).
  generalize dependent (c / 16 / 16 / 16).
  generalize dependent (c / 16 / 16).
  generalize dependent (c / 16).
  intros. lia.
Qed.

Lemma hex4_uescape (c : N) :
  c < 65536 ->
  hex4 (hexdigit (c / 4096 mod 16)) (hexdigit (c / 256 mod 16))
       (hexdigit (c / 16 mod 16)) (hexdigit (c mod 16)) = Some c.
Proof.
  intros Hc. unfold hex4.
  rewrite !hexval_hexdigit by (apply N.mod_lt; discriminate).
  f_equal. now apply hex_digits_value.
Qed.

Lemma parse_chars_uescape (c : N) (rest : jsstring) :
  c < 65536 -> parse_chars (uescape c ++ rest) = cons_fst c <$> parse_chars rest.
Proof.
  intros Hc. unfold uescape. cbn [app parse_chars].
  change (92 =? 34) with false. change (92 =? 92) with true.
  change (117 =? 117) with true. cbv iota.
  now rewrite hex4_uescape.
Qed.

Lemma parse_chars_plain (c : N) (rest : jsstring) :
  c <> 34 -> c <> 92 -> 32 <= c ->
  parse_chars (c :: rest) = cons_fst c <$> parse_chars rest.
Proof.
  intros H1 H2 H3. cbn [parse_chars]. unit_cases. reflexivity.
Qed.

Lemma parse_chars_escape_unit (c : N) (rest : jsstring) :
  parse_chars (escape_unit c ++ rest) = cons_fst c <$> parse_chars rest.
Proof.
  unfold escape_unit.
  destruct (N.eqb_spec c 8) as [->|]; [reflexivity|].
  destruct (N.eqb_spec c 9) as [->|]; [reflexivity|].
  destruct (N.eqb_spec c 10) as [->|]; [reflexivity|].
  destruct (N.eqb_spec c 12) as [->|]; [reflexivity|].
  destruct (N.eqb_spec c 13) as [->|]; [reflexivity|].
  destruct (N.eqb_spec c 34) as [->|]; [reflexivity|].
  destruct (N.eqb_spec c 92) as [->|]; [reflexivity|].
  destruct (N.ltb_spec c 32).
  - apply parse_chars_uescape. lia.
  - now apply parse_chars_plain.
Qed.

(** Reading back a quoted string: the closing quote ends it. *)
Lemma parse_chars_escape (s rest : jsstring) :
  parse_chars (escape s ++ 34 :: rest) = Some (s, rest).
Proof.
  remember (length s) as n eqn:Hn.
  revert s Hn. induction (lt_wf n) as [n _ IH]. intros s Hn.
  destruct s as [|c r]; [reflexivity|]. cbn [escape].
  assert (IHr : parse_chars (escape r ++ 34 :: rest) = Some (r, rest)).
  { apply (IH (length r)); [subst n; simpl; lia | reflexivity]. }
  destruct (is_high c) eqn:Hh.
  - unfold is_high in Hh. apply andb_true_iff in Hh as [H1 H2].
    apply N.leb_le in H1, H2.
    destruct r as [|d r'].
    + rewrite parse_chars_uescape by lia. reflexivity.
    + destruct (is_low d) eqn:Hl.
      * unfold is_low in Hl. apply andb_true_iff in Hl as [H3 H4].
        apply N.leb_le in H3, H4.
        rewrite <- !app_comm_cons.
        rewrite !parse_chars_plain by lia.
        rewrite (IH (length r') ltac:(subst n; simpl; lia) r' eq_refl). reflexivity.
      * rewrite <- app_assoc, parse_chars_uescape by lia. now rewrite IHr.
  - destruct (is_low c) eqn:Hl.
    + unfold is_low in Hl. apply andb_true_iff in Hl as [H3 H4].
      apply N.leb_le in H3, H4.
      rewrite <- app_assoc, parse_chars_uescape by lia. now rewrite IHr.
    + rewrite <- app_assoc, parse_chars_escape_unit. now rewrite IHr.
Qed.

Lemma parse_value_quote (f : nat) (s rest : jsstring) :
  parse_value (S f) (quote s ++ rest) = Some (JStr s, rest).
Proof.
  unfold quote. rewrite <- app_comm_cons, <- app_assoc. simpl.
  now rewrite parse_chars_escape.
Qed.

Lemma parse_value_bool (f : nat) (b : bool) (rest : jsstring) :
  parse_value (S f) (stringify (JBool b) ++ rest) = Some (JBool b, rest).
Proof. destruct b; reflexivity. Qed.

(** One member of an object: a quoted key, a colon, then a value. *)
Lemma parse_members_quote (f : nat) (acc : list (jsstring * json)) (k rest : jsstring) :
  parse_members (S f) acc (quote k ++ 58 :: rest) =
  match parse_value f rest with
  | None => None
  | Some (v, r3) =>
    match skip_ws r3 with
    | [] => None
    | c' :: r4 =>
      if c' =? 44 then parse_members f (obj_set k v acc) r4
      else if c' =? 125 then Some (JObj (obj_set k v acc), r4)
      else None
    end
  end.
Proof.
  unfold quote. rewrite <- app_comm_cons, <- app_assoc. simpl.
  now rewrite parse_chars_escape.
Qed.

Lemma parse_members_more (f : nat) (acc : list (jsstring * json))
    (k : jsstring) (v : json) (text rest : jsstring) :
  parse_value f text = Some (v, 44 :: rest) ->
  parse_members (S f) acc (quote k ++ 58 :: text) = parse_members f (obj_set k v acc) rest.
Proof. intros H. rewrite parse_members_quote, H. reflexivity. Qed.

Lemma parse_members_last (f : nat) (acc : list (jsstring * json))
    (k : jsstring) (v : json) (text rest : jsstring) :
  parse_value f text = Some (v, 125 :: rest) ->
  parse_members (S f) acc (quote k ++ 58 :: text) = Some (JObj (obj_set k v acc), rest).
Proof. intros H. rewrite parse_members_quote, H. reflexivity. Qed.

(** Reading back a task record. *)
Lemma parse_value_of_todo (f : nat) (x : todo) (rest : jsstring) :
  (5 <= f)%nat ->
  parse_value f (stringify (of_todo x) ++ rest) = Some (of_todo x, rest).
Proof.
  intros Hf. replace f with (5 + (f - 5))%nat by lia. clear Hf.
  generalize (f - 5)%nat. clear f. intros f.
  destruct x as [i t c].
  change (stringify (of_todo (Todo.mk i t c)))
    with (123 :: ((quote (js "id") ++ 58 :: quote i)
                  ++ 44 :: (quote (js "text") ++ 58 :: quote t)
                  ++ 44 :: (quote (js "completed") ++ 58 :: stringify (JBool c)))
                 ++ [125]).
  rewrite <- !app_comm_cons. repeat rewrite <- ?app_assoc, <- ?app_comm_cons.
  change (5 + f)%nat with (S (S (S (S (S f))))).
  change (parse_value (S (S (S (S (S f))))) (123 :: quote (js "id") ++ ?r))
    with (parse_members (S (S (S (S f)))) [] (quote (js "id") ++ r)).
  erewrite (parse_members_more _ _ _ (JStr i)) by apply parse_value_quote.
  erewrite (parse_members_more _ _ _ (JStr t)) by apply parse_value_quote.
  erewrite (parse_members_last _ _ _ (JBool c)) by apply parse_value_bool.
  reflexivity.
Qed.

Lemma join_comma_cons2 (p q : jsstring) (ps : list jsstring) :
  join_comma (p :: q :: ps) = p ++ 44 :: join_comma (q :: ps).
Proof. reflexivity. Qed.

(** Reading back the elements of a non-empty task list, up to the closing
    bracket. *)
Lemma parse_elements_of_todos (l : list todo) :
  forall (x : todo) (acc : list json) (f : nat) (rest : jsstring),
  (length l + 6 <= f)%nat ->
  parse_elements f acc
    (join_comma (map stringify (map of_todo (x :: l))) ++ 93 :: rest)
  = Some (JArr (acc ++ map of_todo (x :: l)), rest).
Proof.
  induction l as [|y l IH]; intros x acc f rest Hf;
    (destruct f as [|f]; [simpl in Hf; lia|]); simpl in Hf.
  - change (parse_elements (S f) acc (stringify (of_todo x) ++ 93 :: rest)
            = Some (JArr (acc ++ [of_todo x]), rest)).
    cbn [parse_elements]. rewrite parse_value_of_todo by lia. reflexivity.
  - cbn [map]. rewrite join_comma_cons2, <- app_assoc, <- app_comm_cons.
    cbn [parse_elements]. rewrite parse_value_of_todo by lia.
    change (skip_ws (44 :: ?r)) with (44 :: r). cbv beta iota.
    change (44 =? 44) with true. cbv iota.
    pose proof (IH y (acc ++ [of_todo x]) f rest ltac:(lia)) as H.
    cbn [map] in H. rewrite H. now rewrite <- app_assoc.
Qed.

Lemma join_comma_todos_head (x : todo) (l : list todo) :
  exists tail, join_comma (map stringify (map of_todo (x :: l))) = 123 :: tail.
Proof.
  destruct l as [|y l]; cbn [map].
  - cbn [join_comma]. simpl. eauto.
  - rewrite join_comma_cons2. simpl. eauto.
Qed.

(** Reading back a task list. *)
Lemma parse_value_of_todos (l : list todo) (f : nat) (rest : jsstring) :
  (length l + 6 <= f)%nat ->
  parse_value f (stringify (of_todos l) ++ rest) = Some (of_todos l, rest).
Proof.
  intros Hf. destruct f as [|f]; [lia|].
  destruct l as [|x l]; [reflexivity|].
  unfold of_todos. cbn [stringify]. rewrite <- app_comm_cons, <- app_assoc.
  change ([93] ++ rest) with (93 :: rest).
  pose proof (parse_elements_of_todos l x [] f rest ltac:(simpl in Hf; lia)) as H.
  destruct (join_comma_todos_head x l) as [tail E]. rewrite E in *.
  rewrite <- app_comm_cons in *. exact H.
Qed.

Lemma join_comma_length (parts : list jsstring) :
  Forall (fun p => (1 <= length p)%nat) parts ->
  (length parts <= length (join_comma parts))%nat.
Proof.
  induction 1 as [|p ps Hp Hps IH]; [reflexivity|].
  destruct ps as [|q ps]; [simpl; lia|].
  rewrite join_comma_cons2, length_app. simpl in *. lia.
Qed.

Lemma stringify_of_todos_length (l : list todo) :
  (length l + 2 <= length (stringify (of_todos l)))%nat.
Proof.
  unfold of_todos. cbn [stringify]. cbn [length]. rewrite length_app. simpl.
  pose proof (join_comma_length (map stringify (map of_todo l))) as H.
  rewrite !length_map in H.
  assert (length l <= length (join_comma (map stringify (map of_todo l))))%nat; [|lia].
  apply H. rewrite !Forall_fmap. apply Forall_forall. intros x _. simpl. lia.
Qed.

(** [JSON.parse(JSON.stringify(l))] is [l] for a task list [l]. *)
Lemma JSON_parse_stringify_todos (l : list todo) :
  JSON_parse (stringify (of_todos l)) = Normal (of_todos l).
Proof.
  assert (l = [] \/ (1 <= length l)%nat) as [-> | Hne]
    by (destruct l; [now left | right; simpl; lia]); [reflexivity|].
  unfold JSON_parse.
  pose proof (stringify_of_todos_length l) as Hlen.
  pose proof (parse_value_of_todos l (S (2 * length (stringify (of_todos l)))) []
                ltac:(lia)) as H.
  rewrite app_nil_r in H. rewrite H. reflexivity.
Qed.

Lemma of_todo_inj (x y : todo) : of_todo x = of_todo y -> x = y.
Proof. destruct x, y. unfold of_todo. simpl. intros H. inversion H. reflexivity. Qed.

Lemma of_todos_inj (l k : list todo) : of_todos l = of_todos k -> l = k.
Proof.
  unfold of_todos. intros H. injection H as H. revert k H.
  induction l as [|x l IH]; intros [|y k] H; try discriminate; [reflexivity|].
  cbn [map] in H. apply (f_equal (fun v => (head v, tail v))) in H. cbn [head tail] in H.
  injection H as Hi Ht Hc Hl. f_equal; [|now apply IH].
  destruct x, y; simpl in *; congruence.
Qed.

(** *** The fuel of the parser *)

Lemma skip_ws_length (s : jsstring) : (length (skip_ws s) <= length s)%nat.
Proof.
  induction s as [|c s IH]; simpl; [lia|]. destruct (json_ws c); simpl; lia.
Qed.

Lemma parse_chars_length_aux (n : nat) :
  forall s k r, (length s <= n)%nat -> parse_chars s = Some (k, r) ->
  (length r < length s)%nat.
Proof.
  induction n as [|n IH]; intros s k r Hn H.
  { destruct s; [discriminate | simpl in Hn; lia]. }
  destruct s as [|c s]; [discriminate|]. cbn [parse_chars] in H. simpl in *.
  assert (Hrec : forall u s' k' r', (length s' <= length s)%nat ->
                   cons_fst u <$> parse_chars s' = Some (k', r') ->
                   (length r' < S (length s))%nat).
  { intros u s' k' r' Hs' H'. destruct (parse_chars s') as [[k0 r0]|] eqn:E; [|discriminate].
    injection H' as <- <-. simpl.
    enough (length r0 < length s')%nat by lia.
    apply (IH s' k0 r0); [lia | exact E]. }
  destruct (c =? 34). { injection H as <- <-. lia. }
  destruct (c =? 92).
  - destruct s as [|e s1]; [discriminate|].
    destruct (e =? 117).
    + destruct s1 as [|a [|b [|c' [|d s2]]]]; try discriminate.
      destruct (hex4 a b c' d) as [u|]; [|discriminate].
      eapply Hrec; [|exact H]. simpl. lia.
    + destruct (unescape e) as [u|]; [|discriminate].
      eapply Hrec; [|exact H]. simpl. lia.
  - destruct (c <? 32); [discriminate|]. eapply Hrec; [|exact H]. lia.
Qed.

Lemma parse_chars_length (s k r : jsstring) :
  parse_chars s = Some (k, r) -> (length r < length s)%nat.
Proof. apply (parse_chars_length_aux (length s)). lia. Qed.

Lemma span_digits_length (s : jsstring) : (length (snd (span_digits s)) <= length s)%nat.
Proof.
  induction s as [|c s IH]; simpl; [lia|]. destruct (is_digit c); simpl; lia.
Qed.

Lemma parse_int_length (s i r : jsstring) :
  parse_int s = Some (i, r) -> (length r < length s)%nat.
Proof.
  destruct s as [|c s]; [discriminate|]. simpl.
  destruct (c =? 48). { intros H. injection H as <- <-. lia. }
  destruct (is_digit c); [|discriminate]. intros H. injection H as <- <-.
  pose proof (span_digits_length s) as Hsp. simpl. lia.
Qed.

Lemma parse_frac_length (s i r : jsstring) :
  parse_frac s = Some (i, r) -> (length r <= length s)%nat.
Proof.
  destruct s as [|c s]; simpl. { intros H. injection H as <- <-. simpl. lia. }
  destruct (c =? 46).
  - pose proof (span_digits_length s) as Hsp. destruct (span_digits s) as [[|d ds] r'];
      [discriminate|]. intros H. injection H as <- <-. simpl in *. lia.
  - intros H. injection H as <- <-. simpl. lia.
Qed.

Lemma parse_exp_length (s i r : jsstring) :
  parse_exp s = Some (i, r) -> (length r <= length s)%nat.
Proof.
  destruct s as [|c s]; simpl. { intros H. injection H as <- <-. simpl. lia. }
  destruct ((c =? 101) || (c =? 69)).
  - destruct s as [|g s'].
    + simpl. discriminate.
    + destruct ((g =? 43) || (g =? 45)).
      * pose proof (span_digits_length s') as Hsp. destruct (span_digits s') as [[|d ds] r'];
          [discriminate|]. intros H. injection H as <- <-. simpl in *. lia.
      * pose proof (span_digits_length (g :: s')) as Hsp.
        destruct (span_digits (g :: s')) as [[|d ds] r'];
          [discriminate|]. intros H. injection H as <- <-. simpl in *. lia.
  - intros H. injection H as <- <-. simpl. lia.
Qed.

Lemma parse_number_length (s i r : jsstring) :
  parse_number s = Some (i, r) -> (length r < length s)%nat.
Proof.
  unfold parse_number.
  set (p := match s with [] => ([], s) | c :: r0 => if c =? 45 then ([45], r0) else ([], s) end).
  assert (Hp : (length (snd p) <= length s)%nat).
  { subst p. destruct s as [|c s]; simpl; [lia|]. destruct (c =? 45); simpl; lia. }
  destruct p as [sign s1]. simpl in Hp.
  destruct (parse_int s1) as [[i1 s2]|] eqn:E1; [|discriminate]. simpl.
  destruct (parse_frac s2) as [[f1 s3]|] eqn:E2; [|discriminate]. simpl.
  destruct (parse_exp s3) as [[e1 s4]|] eqn:E3; [|discriminate]. simpl.
  intros H. injection H as <- <-.
  apply parse_int_length in E1. apply parse_frac_length in E2. apply parse_exp_length in E3.
  lia.
Qed.

Lemma strip_prefix_length (p s r : jsstring) :
  strip_prefix p s = Some r -> (length r <= length s)%nat.
Proof.
  revert s. induction p as [|a p IH]; intros s; simpl.
  - intros H. injection H as <-. lia.
  - destruct s as [|b s]; [discriminate|]. destruct (a =? b); [|discriminate].
    intros H. apply IH in H. simpl. lia.
Qed.

Lemma strip_prefix_consumes (p s r : jsstring) :
  p <> [] -> strip_prefix p s = Some r -> (length r < length s)%nat.
Proof.
  destruct p as [|a p]; [contradiction|]. intros _. simpl.
  destruct s as [|b s]; [discriminate|]. destruct (a =? b); [|discriminate].
  intros H. apply strip_prefix_length in H. simpl. lia.
Qed.

(** Every successful call consumes input. *)
Lemma parse_consumes (f : nat) :
  (forall s v r, parse_value f s = Some (v, r) -> (length r < length s)%nat) /\
  (forall acc s v r, parse_elements f acc s = Some (v, r) -> (length r < length s)%nat) /\
  (forall acc s v r, parse_members f acc s = Some (v, r) -> (length r < length s)%nat).
Proof.
  induction f as [|f (IHv & IHe & IHm)]; [repeat split; intros; discriminate|].
  repeat split.
  - intros s v r H. cbn [parse_value] in H.
    pose proof (skip_ws_length s) as Hs.
    destruct (skip_ws s) as [|c r0]; [discriminate|]. simpl in Hs.
    destruct (c =? 123).
    { pose proof (skip_ws_length r0) as Hr0.
      destruct (skip_ws r0) as [|c1 r1]; [discriminate|]. simpl in Hr0.
      destruct (c1 =? 125); [injection H as <- <-; lia|].
      apply IHm in H. simpl in H. lia. }
    destruct (c =? 91).
    { pose proof (skip_ws_length r0) as Hr0.
      destruct (skip_ws r0) as [|c1 r1]; [discriminate|]. simpl in Hr0.
      destruct (c1 =? 93); [injection H as <- <-; lia|].
      apply IHe in H. simpl in H. lia. }
    destruct (c =? 34).
    { destruct (parse_chars r0) as [[str r1]|] eqn:E; [|discriminate].
      injection H as <- <-. apply parse_chars_length in E. lia. }
    destruct (c =? 116).
    { destruct (strip_prefix (js "true") (c :: r0)) as [r1|] eqn:E; [|discriminate].
      cbn [mbind option_bind] in H. injection H as <- <-.
      apply strip_prefix_consumes in E; [simpl in E; lia | discriminate]. }
    destruct (c =? 102).
    { destruct (strip_prefix (js "false") (c :: r0)) as [r1|] eqn:E; [|discriminate].
      cbn [mbind option_bind] in H. injection H as <- <-.
      apply strip_prefix_consumes in E; [simpl in E; lia | discriminate]. }
    destruct (c =? 110).
    { destruct (strip_prefix (js "null") (c :: r0)) as [r1|] eqn:E; [|discriminate].
      cbn [mbind option_bind] in H. injection H as <- <-.
      apply strip_prefix_consumes in E; [simpl in E; lia | discriminate]. }
    destruct (parse_number (c :: r0)) as [[lexeme r1]|] eqn:E; [|discriminate].
    injection H as <- <-. apply parse_number_length in E. simpl in E. lia.
  - intros acc s v r H. cbn [parse_elements] in H.
    destruct (parse_value f s) as [[v0 r0]|] eqn:E; [|discriminate].
    apply IHv in E.
    pose proof (skip_ws_length r0) as Hr0.
    destruct (skip_ws r0) as [|c r1]; [discriminate|]. simpl in Hr0.
    destruct (c =? 44); [apply IHe in H; lia|].
    destruct (c =? 93); [|discriminate]. injection H as <- <-. lia.
  - intros acc s v r H. cbn [parse_members] in H.
    pose proof (skip_ws_length s) as Hs.
    destruct (skip_ws s) as [|q r0]; [discriminate|]. simpl in Hs.
    destruct (q =? 34); [|discriminate].
    destruct (parse_chars r0) as [[k r1]|] eqn:E; [|discriminate].
    apply parse_chars_length in E.
    pose proof (skip_ws_length r1) as Hr1.
    destruct (skip_ws r1) as [|c r2]; [discriminate|]. simpl in Hr1.
    destruct (c =? 58); [|discriminate].
    destruct (parse_value f r2) as [[v0 r3]|] eqn:E2; [|discriminate].
    apply IHv in E2.
    pose proof (skip_ws_length r3) as Hr3.
    destruct (skip_ws r3) as [|c' r4]; [discriminate|]. simpl in Hr3.
    destruct (c' =? 44); [apply IHm in H; lia|].
    destruct (c' =? 125); [|discriminate]. injection H as <- <-. lia.
Qed.

(** More fuel never changes a result. *)
Lemma parse_fuel_S (f : nat) :
  (forall s x, parse_value f s = Some x -> parse_value (S f) s = Some x) /\
  (forall acc s x, parse_elements f acc s = Some x -> parse_elements (S f) acc s = Some x) /\
  (forall acc s x, parse_members f acc s = Some x -> parse_members (S f) acc s = Some x).
Proof.
  induction f as [|f (IHv & IHe & IHm)]; [repeat split; intros; discriminate|].
  repeat split.
  - intros s x H. cbn [parse_value] in H |- *.
    destruct (skip_ws s) as [|c r0]; [discriminate|].
    destruct (c =? 123).
    { destruct (skip_ws r0) as [|c1 r1]; [discriminate|].
      destruct (c1 =? 125); [exact H|]. now apply IHm. }
    destruct (c =? 91).
    { destruct (skip_ws r0) as [|c1 r1]; [discriminate|].
      destruct (c1 =? 93); [exact H|]. now apply IHe. }
    exact H.
  - intros acc s x H. cbn [parse_elements] in H |- *.
    destruct (parse_value f s) as [[v0 r0]|] eqn:E; [|discriminate].
    rewrite (IHv _ _ E).
    destruct (skip_ws r0) as [|c r1]; [discriminate|].
    destruct (c =? 44); [now apply IHe | exact H].
  - intros acc s x H. cbn [parse_members] in H |- *.
    destruct (skip_ws s) as [|q r0]; [discriminate|].
    destruct (q =? 34); [|discriminate].
    destruct (parse_chars r0) as [[k r1]|]; [|discriminate].
    destruct (skip_ws r1) as [|c r2]; [discriminate|].
    destruct (c =? 58); [|discriminate].
    destruct (parse_value f r2) as [[v0 r3]|] eqn:E2; [|discriminate].
    rewrite (IHv _ _ E2).
    destruct (skip_ws r3) as [|c' r4]; [discriminate|].
    destruct (c' =? 44); [now apply IHm | exact H].
Qed.

Lemma parse_fuel_le (f f' : nat) :
  (f <= f')%nat ->
  (forall s x, parse_value f s = Some x -> parse_value f' s = Some x) /\
  (forall acc s x, parse_elements f acc s = Some x -> parse_elements f' acc s = Some x) /\
  (forall acc s x, parse_members f acc s = Some x -> parse_members f' acc s = Some x).
Proof.
  induction 1 as [|f' _ (IHv & IHe & IHm)]; [tauto|].
  destruct (parse_fuel_S f') as (Sv & Se & Sm). repeat split; intros; auto.
Qed.

(** The fuel [JSON_parse] gives is enough: a result reached with any fuel is
    reached with it. *)
Lemma parse_fuel_enough (f : nat) :
  (forall s x, parse_value f s = Some x ->
     parse_value (S (2 * length s)) s = Some x) /\
  (forall acc s x, parse_elements f acc s = Some x ->
     parse_elements (2 * length s + 2) acc s = Some x) /\
  (forall acc s x, parse_members f acc s = Some x ->
     parse_members (2 * length s + 2) acc s = Some x).
Proof.
  induction f as [|f (IHv & IHe & IHm)]; [repeat split; intros; discriminate|].
  repeat split.
  - intros s x H. cbn [parse_value] in H |- *.
    pose proof (skip_ws_length s) as Hs.
    destruct (skip_ws s) as [|c r0]; [discriminate|]. simpl in Hs.
    destruct (c =? 123).
    { pose proof (skip_ws_length r0) as Hr0.
      destruct (skip_ws r0) as [|c1 r1]; [discriminate|].
      destruct (c1 =? 125); [exact H|]. apply IHm in H.
      eapply parse_fuel_le; [|exact H]. simpl in *. lia. }
    destruct (c =? 91).
    { pose proof (skip_ws_length r0) as Hr0.
      destruct (skip_ws r0) as [|c1 r1]; [discriminate|].
      destruct (c1 =? 93); [exact H|]. apply IHe in H.
      eapply parse_fuel_le; [|exact H]. simpl in *. lia. }
    exact H.
  - intros acc s x H. cbn [parse_elements] in H.
    replace (2 * length s + 2)%nat with (S (S (2 * length s))) by lia.
    remember (S (2 * length s)) as g eqn:Hg. cbn [parse_elements].
    destruct (parse_value f s) as [[v0 r0]|] eqn:E; [|discriminate].
    pose proof (proj1 (parse_consumes f) _ _ _ E) as Hc.
    assert (Hv : parse_value g s = Some (v0, r0)) by (subst g; exact (IHv _ _ E)).
    rewrite Hv.
    pose proof (skip_ws_length r0) as Hr0.
    destruct (skip_ws r0) as [|c r1]; [discriminate|]. simpl in Hr0.
    destruct (c =? 44); [|exact H]. apply IHe in H.
    eapply parse_fuel_le; [|exact H]. lia.
  - intros acc s x H. cbn [parse_members] in H.
    replace (2 * length s + 2)%nat with (S (S (2 * length s))) by lia.
    remember (S (2 * length s)) as g eqn:Hg. cbn [parse_members].
    pose proof (skip_ws_length s) as Hs.
    destruct (skip_ws s) as [|q r0]; [discriminate|]. simpl in Hs.
    destruct (q =? 34); [|discriminate].
    destruct (parse_chars r0) as [[k r1]|] eqn:Ek; [|discriminate].
    apply parse_chars_length in Ek.
    pose proof (skip_ws_length r1) as Hr1.
    destruct (skip_ws r1) as [|c r2]; [discriminate|]. simpl in Hr1.
    destruct (c =? 58); [|discriminate].
    destruct (parse_value f r2) as [[v0 r3]|] eqn:E2; [|discriminate].
    pose proof (proj1 (parse_consumes f) _ _ _ E2) as Hc.
    assert (Hv : parse_value g r2 = Some (v0, r3)).
    { eapply parse_fuel_le; [|exact (IHv _ _ E2)]. lia. }
    rewrite Hv.
    pose proof (skip_ws_length r3) as Hr3.
    destruct (skip_ws r3) as [|c' r4]; [discriminate|]. simpl in Hr3.
    destruct (c' =? 44); [|exact H]. apply IHm in H.
    eapply parse_fuel_le; [|exact H]. lia.
Qed.

(** [JSON_parse] does not depend on its fuel: when some fuel reads a value
    followed by white space only, [JSON_parse] returns that value. *)
Theorem JSON_parse_complete (f : nat) (text : jsstring) (v : json) (r : jsstring) :
  parse_value f text = Some (v, r) -> skip_ws r = [] -> JSON_parse text = Normal v.
Proof.
  intros H Hr. unfold JSON_parse.
  rewrite (proj1 (parse_fuel_enough f) _ _ H), Hr. reflexivity.
Qed.

(** ** The [useLocalStorage] hook *)

Lemma setItem_Normal (st st' : Storage) (key value : jsstring) :
  setItem st key value = Normal st' ->
  denied st' = false /\ items st' !! key = Some value.
Proof.
  unfold setItem. destruct (denied st) eqn:Hd; [discriminate|].
  destruct (_ <? _); [discriminate|]. intros H. injection H as <-. simpl.
  split; [reflexivity | apply lookup_insert_eq].
Qed.

(** C7: when the write of a task list succeeds ([setItem] does not throw),
    the effect leaves the storage [setItem] produced, and the initialiser
    run on that storage under the same key returns the task list, whatever
    the default. *)
Theorem save_load_roundtrip (st st' : Storage) (key : jsstring) (l : list todo)
    (initialValue : json) :
  setItem st key (stringify (of_todos l)) = Normal st' ->
  useLocalStorage_save st key (of_todos l) = Normal st' /\
  useLocalStorage_load st' key initialValue = Normal (of_todos l).
Proof.
  intros Hset. split.
  - unfold useLocalStorage_save, JSON_stringify, bind. now rewrite Hset.
  - apply setItem_Normal in Hset as [Hd Hv].
    unfold useLocalStorage_load, getItem, bind. rewrite Hd, Hv.
    assert (truthy (stringify (of_todos l)) = true) as -> by reflexivity.
    rewrite JSON_parse_stringify_todos. reflexivity.
Qed.

Lemma save_load_roundtrip_witness :
  exists st',
    useLocalStorage_save {| items := ∅; denied := false; quota := 5000000 |} todos_key
      (of_todos [ {| Todo.id := js "a"; Todo.text := js "Buy milk"; Todo.completed := true |} ])
    = Normal st' /\
    useLocalStorage_load st' todos_key no_todos
    = Normal (of_todos [ {| Todo.id := js "a"; Todo.text := js "Buy milk";
                            Todo.completed := true |} ]).
Proof.
  eexists.
  apply (save_load_roundtrip {| items := ∅; denied := false; quota := 5000000 |}).
  vm_compute. reflexivity.
Defined.

(** C8 (as amended): [load] never throws.  It returns the default when
    access to the storage is denied, when the key has no item, when the
    item is the empty string and when the item does not parse; when the
    item parses it returns the parsed value, whatever its shape. *)
Theorem load_spec (st : Storage) (key : jsstring) (initialValue : json) :
  (exists v, useLocalStorage_load st key initialValue = Normal v) /\
  (denied st = true -> useLocalStorage_load st key initialValue = Normal initialValue) /\
  (items st !! key = None -> useLocalStorage_load st key initialValue = Normal initialValue) /\
  (items st !! key = Some [] -> useLocalStorage_load st key initialValue = Normal initialValue) /\
  (forall raw e, items st !! key = Some raw -> JSON_parse raw = Throw e ->
     useLocalStorage_load st key initialValue = Normal initialValue) /\
  (forall raw v, denied st = false -> items st !! key = Some raw -> raw <> [] ->
     JSON_parse raw = Normal v -> useLocalStorage_load st key initialValue = Normal v).
Proof.
  unfold useLocalStorage_load, getItem. repeat split.
  - destruct (denied st); simpl; [eauto|].
    destruct (items st !! key) as [raw|]; [|eauto].
    destruct (truthy raw); [|eauto].
    destruct (JSON_parse raw); simpl; eauto.
  - now intros ->.
  - intros ->. now destruct (denied st).
  - intros ->. now destruct (denied st).
  - intros raw e -> He. destruct (denied st); simpl; [reflexivity|].
    destruct (truthy raw); [|reflexivity]. now rewrite He.
  - intros raw v -> -> Hne Hv. simpl. destruct raw; [contradiction|]. simpl.
    now rewrite Hv.
Qed.

Lemma load_spec_witness :
  useLocalStorage_load (storage_with todos_key (js "{}")) todos_key no_todos = Normal (JObj []).
Proof.
  apply (load_spec (storage_with todos_key (js "{}")) todos_key no_todos) with (raw := js "{}").
  - reflexivity.
  - vm_compute. reflexivity.
  - vm_compute. discriminate.
  - vm_compute. reflexivity.
Defined.

(** C8 (as stated) fails: a stored object is not a task list, it parses,
    and [load] returns it instead of the default. *)
Lemma load_returns_other_shapes :
  ~ load_rejects_other_shapes (storage_with todos_key (js "{}")) todos_key.
Proof.
  intros H. specialize (H (js "{}") (JObj [])).
  assert (Hload : useLocalStorage_load (storage_with todos_key (js "{}")) todos_key no_todos
                  = Normal (JObj [])) by (vm_compute; reflexivity).
  rewrite Hload in H. discriminate H.
  - vm_compute. reflexivity.
  - vm_compute. reflexivity.
  - intros [l Hl]. discriminate Hl.
Qed.

(** ** The scenarios of the specification *)

Example scenario_buy_milk :
  let uuid1 := {| randomUUID := Some (js "id-1"); Date_now := 0 |} in
  let uuid2 := {| randomUUID := Some (js "id-2"); Date_now := 0 |} in
  let l1 := addTodo uuid1 (js "Buy milk") [] in
  let l2 := toggle (js "id-1") l1 in
  let l3 := addTodo uuid2 (js "Walk dog") l2 in
  l1 = [ {| Todo.id := js "id-1"; Todo.text := js "Buy milk"; Todo.completed := false |} ]
  /\ l2 = [ {| Todo.id := js "id-1"; Todo.text := js "Buy milk"; Todo.completed := true |} ]
  /\ left l2 = 0%nat
  /\ length l3 = 2%nat
  /\ Todo.text <$> head l3 = Some (js "Walk dog")
  /\ clearCompleted l3
     = [ {| Todo.id := js "id-2"; Todo.text := js "Walk dog"; Todo.completed := false |} ].
Proof. vm_compute. repeat split. Qed.

(** The surface rejects an empty edit: no call of [edit] is made. *)
Example scenario_empty_edit (x : todo) (l : list todo) : commit x (js "   ") l = l.
Proof. reflexivity. Qed.

Example JSON_parse_values :
  JSON_parse (js " [ 1 , -2.5e+3 , true , null , [ ] , { } ] ")
  = Normal (JArr [JNum (js "1"); JNum (js "-2.5e+3"); JBool true; JNull; JArr []; JObj []])
  /\ JSON_parse (quote [34; 92; 10; 31; 233; 55357; 56832; 55357])
     = Normal (JStr [34; 92; 10; 31; 233; 55357; 56832; 55357])
  /\ JSON_parse (js "[1,]") = Throw SyntaxError
  /\ JSON_parse (js "01") = Throw SyntaxError
  /\ JSON_parse (js "[] x") = Throw SyntaxError
  /\ JSON_parse [] = Throw SyntaxError.
Proof. vm_compute. repeat split. Qed.

(** * Further properties *)

(** ** More on the engine *)

Lemma ids_toggle (id : jsstring) (l : list todo) : ids (toggle id l) = ids l.
Proof.
  unfold ids, toggle. induction l as [|x l IH]; simpl; [reflexivity|].
  rewrite IH. f_equal. now destruct (id_is id x).
Qed.

Lemma ids_edit (id text : jsstring) (l : list todo) : ids (edit id text l) = ids l.
Proof.
  unfold ids, edit. induction l as [|x l IH]; simpl; [reflexivity|].
  rewrite IH. f_equal. now destruct (id_is id x).
Qed.

Lemma ids_filter_sublist (f : todo -> bool) (l : list todo) :
  sublist (ids (List.filter f l)) (ids l).
Proof.
  unfold ids. induction l as [|x l IH]; simpl; [constructor|].
  destruct (f x); simpl; now constructor.
Qed.

(** X1: [edit] keeps the length and the positions; at every position the
    record keeps its id and its [completed], its text becomes the new text
    when its id matches and the record is untouched otherwise; with no
    matching record the list is returned as it was. *)
Theorem edit_frame (id text : jsstring) (l : list todo) :
  length (edit id text l) = length l /\
  (forall (i : nat) (x : todo), l !! i = Some x ->
     edit id text l !! i =
       Some (if bool_decide (Todo.id x = id)
             then {| Todo.id := Todo.id x; Todo.text := text;
                     Todo.completed := Todo.completed x |}
             else x)) /\
  ((forall x, x ∈ l -> Todo.id x <> id) -> edit id text l = l).
Proof.
  unfold edit. split; [apply length_map|]. split.
  - intros i x Hx. rewrite list_lookup_fmap_Some_2 with (x := x); [|exact Hx]; reflexivity.
  - intros Hno. induction l as [|x l IH]; simpl; [reflexivity|].
    assert (id_is id x = false) as -> by (apply id_is_false, Hno; left).
    f_equal. apply IH. intros y Hy. apply Hno. now right.
Qed.

Lemma edit_frame_witness :
  edit (js "b") (js "Walk dog")
    [ {| Todo.id := js "a"; Todo.text := js "Buy milk"; Todo.completed := true |} ]
  = [ {| Todo.id := js "a"; Todo.text := js "Buy milk"; Todo.completed := true |} ].
Proof.
  apply (edit_frame (js "b") (js "Walk dog")
           [ {| Todo.id := js "a"; Todo.text := js "Buy milk"; Todo.completed := true |} ]).
  intros x Hx. apply list_elem_of_singleton in Hx. subst x. vm_compute. discriminate.
Defined.

(** X2: distinct ids stay distinct under every operation of the engine,
    provided an [Add] brings an identifier the list does not use yet. *)
Theorem unique_ids_preserved (o : op) (l : list todo) :
  NoDup (ids l) -> op_fresh o l -> NoDup (ids (apply_op o l)).
Proof.
  intros Hnd Hfresh. destruct o as [env s|id|id s|id|]; simpl in *.
  - unfold addTodo. destruct (truthy (trim s)); simpl; [|exact Hnd].
    apply NoDup_cons. split; assumption.
  - now rewrite ids_toggle.
  - now rewrite ids_edit.
  - eapply sublist_NoDup; [exact Hnd | apply ids_filter_sublist].
  - eapply sublist_NoDup; [exact Hnd | apply ids_filter_sublist].
Qed.

Lemma unique_ids_preserved_witness :
  NoDup (ids (apply_op (Add {| randomUUID := Some (js "b"); Date_now := 0 |} (js "Walk dog"))
                [ {| Todo.id := js "a"; Todo.text := js "Buy milk"; Todo.completed := true |} ])).
Proof.
  apply unique_ids_preserved.
  - apply (bool_decide_unpack _). vm_compute. reflexivity.
  - apply (bool_decide_unpack _). vm_compute. reflexivity.
Defined.

Lemma del_filter_comm (f g : todo -> bool) (l : list todo) :
  List.filter f (List.filter g l) = List.filter g (List.filter f l).
Proof.
  induction l as [|x l IH]; simpl; [reflexivity|].
  destruct (f x) eqn:Ef; destruct (g x) eqn:Eg; simpl; rewrite ?Ef, ?Eg, IH; reflexivity.
Qed.

(** X3: after [del] no record carries the id, deleting the same id again
    changes nothing, and two deletions give the same list in either
    order. *)
Theorem del_twice (id id' : jsstring) (l : list todo) :
  (id ∉ ids (del id l)) /\
  del id (del id l) = del id l /\
  del id (del id' l) = del id' (del id l).
Proof.
  repeat split.
  - intros Hin. unfold ids in Hin. apply list_elem_of_fmap in Hin as (x & Hx & Hin).
    unfold del in Hin. apply list_elem_of_In, filter_In in Hin as [_ Hin].
    apply negb_true_iff, id_is_false in Hin. congruence.
  - unfold del. apply filter_id. apply filter_all.
  - unfold del. apply del_filter_comm.
Qed.

Lemma del_absent (id : jsstring) (l : list todo) : id ∉ ids l -> del id l = l.
Proof.
  intros Hn. unfold del. apply filter_id. apply Forall_forall. intros x Hx.
  apply negb_true_iff, id_is_false. intros <-. apply Hn.
  unfold ids. now apply list_elem_of_fmap_2.
Qed.

(** X4: deleting the id [addTodo] has just used gives what deleting it
    from the list before the addition gives: the new record goes, and with
    it every older record that carries the same id.  When the id was not in
    use, that is the list before the addition. *)
Theorem del_addTodo (env : Env) (s : jsstring) (l : list todo) :
  del (new_id env) (addTodo env s l) = del (new_id env) l /\
  (new_id env ∉ ids l -> del (new_id env) (addTodo env s l) = l).
Proof.
  assert (H : del (new_id env) (addTodo env s l) = del (new_id env) l).
  { unfold addTodo. destruct (truthy (trim s)); simpl; [|reflexivity].
    unfold id_is at 1. simpl. now rewrite bool_decide_eq_true_2 by reflexivity. }
  split; [exact H|]. intros Hfresh. rewrite H. now apply del_absent.
Qed.

Lemma del_addTodo_witness :
  del (js "b")
    (addTodo {| randomUUID := Some (js "b"); Date_now := 0 |} (js "Walk dog")
       [ {| Todo.id := js "a"; Todo.text := js "Buy milk"; Todo.completed := true |} ])
  = [ {| Todo.id := js "a"; Todo.text := js "Buy milk"; Todo.completed := true |} ].
Proof.
  apply (del_addTodo {| randomUUID := Some (js "b"); Date_now := 0 |}).
  apply (bool_decide_unpack _). vm_compute. reflexivity.
Defined.

(** ** The counter and the views *)

(** X5: under every filter, whatever its value, the items on screen are a
    sublist of the list: records of the list, unchanged, in their order. *)
Theorem filtered_sublist (l : list todo) (filter : jsstring) : sublist (filtered l filter) l.
Proof.
  unfold filtered. repeat case_bool_decide; try apply filter_sublist. reflexivity.
Qed.

Lemma filtered_active (l : list todo) :
  filtered l (js "active") = List.filter (fun t => negb (Todo.completed t)) l.
Proof. reflexivity. Qed.

Lemma filtered_completed (l : list todo) :
  filtered l (js "completed") = List.filter (fun t => Todo.completed t) l.
Proof. reflexivity. Qed.

(** X6: deleting a record and then filtering shows what filtering and then
    deleting shows, under every filter. *)
Theorem filtered_del (id filter : jsstring) (l : list todo) :
  filtered (del id l) filter = del id (filtered l filter).
Proof.
  unfold filtered, del. repeat case_bool_decide; try reflexivity; apply del_filter_comm.
Qed.

(** X7: the counter is the number of items of the active view, the counter
    and the size of the completed view add up to the size of the list, and
    the active view shows the "No items" line exactly when the counter is
    zero. *)
Theorem left_counts (l : list todo) :
  left l = length (filtered l (js "active")) /\
  (left l + length (filtered l (js "completed")) = length l)%nat /\
  (shows_placeholder l (js "active") = true <-> left l = 0%nat).
Proof.
  unfold shows_placeholder. rewrite filtered_active, filtered_completed. unfold left.
  repeat split.
  - pose proof (filter_split_length (fun t => Todo.completed t) l). lia.
  - apply Nat.eqb_eq.
  - apply Nat.eqb_eq.
Qed.

Lemma left_cons (x : todo) (l : list todo) :
  left (x :: l) = ((if Todo.completed x then 0 else 1) + left l)%nat.
Proof. unfold left. simpl. now destruct (Todo.completed x). Qed.

Lemma toggle_absent (id : jsstring) (l : list todo) : id ∉ ids l -> toggle id l = l.
Proof.
  unfold ids, toggle. induction l as [|x l IH]; simpl; intros Hn; [reflexivity|].
  rewrite not_elem_of_cons in Hn. destruct Hn as [Hx Hl].
  assert (id_is id x = false) as -> by (apply id_is_false; congruence).
  f_equal. now apply IH.
Qed.

(** X8: when the ids of the list are distinct, toggling a record of the
    list moves the counter by exactly one: up when the record was completed,
    down when it was not. *)
Theorem left_toggle (x : todo) (l : list todo) :
  NoDup (ids l) -> x ∈ l ->
  (left (toggle (Todo.id x) l) + (if Todo.completed x then 0 else 1)
   = left l + (if Todo.completed x then 1 else 0))%nat.
Proof.
  induction l as [|y l IH]; intros Hnd Hin; [now apply elem_of_nil in Hin|].
  unfold ids in Hnd. simpl in Hnd. apply NoDup_cons in Hnd as [Hy Hnd].
  change (toggle (Todo.id x) (y :: l))
    with ((if id_is (Todo.id x) y then Todo.with_completed y (negb (Todo.completed y)) else y)
          :: toggle (Todo.id x) l).
  rewrite !left_cons.
  apply elem_of_cons in Hin as [-> | Hin].
  - assert (id_is (Todo.id y) y = true) as -> by now apply id_is_true.
    rewrite toggle_absent by exact Hy. simpl. destruct (Todo.completed y); simpl; lia.
  - assert (id_is (Todo.id x) y = false) as ->.
    { apply id_is_false. intros E. apply Hy. rewrite E. now apply list_elem_of_fmap_2. }
    specialize (IH Hnd Hin). lia.
Qed.

Lemma left_toggle_witness :
  (left (toggle (js "a")
           [ {| Todo.id := js "a"; Todo.text := js "Buy milk"; Todo.completed := true |} ]) + 0
   = left [ {| Todo.id := js "a"; Todo.text := js "Buy milk"; Todo.completed := true |} ] + 1)%nat.
Proof.
  apply (left_toggle {| Todo.id := js "a"; Todo.text := js "Buy milk"; Todo.completed := true |}).
  - apply (bool_decide_unpack _). vm_compute. reflexivity.
  - left.
Defined.

(** X9: the counter is unchanged by [clearCompleted] and by [edit], grows
    by one with every record [addTodo] puts in, and never grows under
    [del]. *)
Theorem left_ops (l : list todo) :
  left (clearCompleted l) = left l /\
  (forall id text, left (edit id text l) = left l) /\
  (forall env s, trim s <> [] -> left (addTodo env s l) = S (left l)) /\
  (forall id, (left (del id l) <= left l)%nat).
Proof.
  repeat split.
  - unfold left, clearCompleted. f_equal. apply filter_id, filter_all.
  - intros id text. unfold edit. induction l as [|x l IH]; [reflexivity|].
    cbn [map]. rewrite !left_cons, IH. now destruct (id_is id x).
  - intros env s Hs. unfold addTodo. destruct (trim s) as [|c t]; [contradiction|].
    reflexivity.
  - intros id. unfold del. induction l as [|x l IH]; [reflexivity|].
    cbn [List.filter]. destruct (negb (id_is id x)); rewrite ?left_cons; lia.
Qed.

(** X10: clearing twice is clearing once; what is left is what the active
    view showed, and its completed view is empty. *)
Theorem clearCompleted_views (l : list todo) :
  clearCompleted (clearCompleted l) = clearCompleted l /\
  clearCompleted l = filtered l (js "active") /\
  filtered (clearCompleted l) (js "completed") = [].
Proof.
  repeat split.
  - unfold clearCompleted. apply filter_id, filter_all.
  - rewrite filtered_completed. unfold clearCompleted.
    induction l as [|x l IH]; [reflexivity|]. simpl.
    destruct (Todo.completed x) eqn:E; simpl; rewrite ?E; exact IH.
Qed.

(** X11: of two edits of the same id the later one stands, a toggle and an
    edit give the same list in either order, and so do a toggle and a
    deletion. *)
Theorem edit_toggle_algebra (a b s t : jsstring) (l : list todo) :
  edit a t (edit a s l) = edit a t l /\
  toggle a (edit b t l) = edit b t (toggle a l) /\
  del a (toggle b l) = toggle b (del a l).
Proof.
  unfold edit, toggle, del. repeat split.
  - induction l as [|x l IH]; [reflexivity|]. cbn [map]. f_equal; [|exact IH].
    destruct (id_is a x) eqn:E; [|now rewrite E].
    unfold id_is in *. simpl. now rewrite E.
  - induction l as [|x l IH]; [reflexivity|]. cbn [map]. f_equal; [|exact IH].
    unfold id_is. destruct x as [i u c]. simpl.
    destruct (bool_decide (i = a)) eqn:Ea; destruct (bool_decide (i = b)) eqn:Eb;
      simpl; rewrite ?Ea, ?Eb; reflexivity.
  - induction l as [|x l IH]; [reflexivity|]. cbn [map List.filter].
    unfold id_is in *. destruct x as [i u c]. simpl.
    destruct (bool_decide (i = a)) eqn:Ea; destruct (bool_decide (i = b)) eqn:Eb;
      simpl; rewrite ?Ea, ?Eb, ?IH; reflexivity.
Qed.

(** ** The text and the id of a new record *)

Lemma trimStart_keep (s : jsstring) :
  (forall c r, s = c :: r -> is_ws c = false) -> trimStart s = s.
Proof.
  destruct s as [|c r]; [reflexivity|]. intros H. simpl.
  now rewrite (H c r eq_refl).
Qed.

Lemma trimStart_trimStart (s : jsstring) : trimStart (trimStart s) = trimStart s.
Proof.
  apply trimStart_keep. intros c r E.
  destruct (trimStart_head s) as [H | (c' & r' & H & Hc)]; congruence.
Qed.

Lemma trim_trim (s : jsstring) : trim (trim s) = trim s.
Proof.
  assert (H1 : trimStart (trim s) = trim s).
  { apply trimStart_keep. intros c r E.
    destruct (trim_head s) as [H | (c' & r' & H & Hc)]; congruence. }
  unfold trim at 1. rewrite H1. unfold trim, trimEnd.
  now rewrite rev_involutive, trimStart_trimStart.
Qed.

(** A trimmed string is empty or ends with a character that is not white
    space. *)
Lemma trim_last (s : jsstring) :
  trim s = [] \/ exists r c, trim s = r ++ [c] /\ is_ws c = false.
Proof.
  unfold trim, trimEnd.
  destruct (trimStart_head (rev (trimStart s))) as [-> | (c & r & -> & Hc)]; [now left|].
  right. exists (rev r), c. split; [reflexivity | exact Hc].
Qed.

(** X12: the text [addTodo] stores is the input without a blank prefix and
    a blank suffix; it starts and ends with a character that is not white
    space, and adding that text instead of the input gives the same list. *)
Theorem addTodo_text (env : Env) (s : jsstring) (l : list todo) :
  trim s <> [] ->
  exists x a b, addTodo env s l = x :: l
    /\ s = a ++ Todo.text x ++ b /\ blank a = true /\ blank b = true
    /\ (exists c r, Todo.text x = c :: r /\ is_ws c = false)
    /\ (exists r c, Todo.text x = r ++ [c] /\ is_ws c = false)
    /\ addTodo env (Todo.text x) l = addTodo env s l.
Proof.
  intros Hs. destruct (trim_split s) as (a & b & Hsplit & Ha & Hb).
  exists {| Todo.id := new_id env; Todo.text := trim s; Todo.completed := false |}, a, b.
  simpl. repeat split; try assumption.
  - unfold addTodo. destruct (trim s); [contradiction | reflexivity].
  - destruct (trim_head s) as [H | H]; [contradiction | exact H].
  - destruct (trim_last s) as [H | H]; [contradiction | exact H].
  - unfold addTodo. now rewrite trim_trim.
Qed.

Lemma addTodo_text_witness :
  exists x a b,
    addTodo {| randomUUID := Some (js "b"); Date_now := 0 |} (js "  Walk dog ") [] = [x]
    /\ js "  Walk dog " = a ++ Todo.text x ++ b /\ blank a = true /\ blank b = true.
Proof.
  destruct (addTodo_text {| randomUUID := Some (js "b"); Date_now := 0 |} (js "  Walk dog ") [])
    as (x & a & b & H1 & H2 & H3 & H4 & _); [vm_compute; discriminate|].
  exists x, a, b. repeat split; assumption.
Defined.

Lemma blank_trim (s : jsstring) : blank s = true -> trim s = [].
Proof.
  intros Hb. unfold trim, trimEnd.
  assert (H : trimStart s = []).
  { induction s as [|c s IH]; [reflexivity|]. simpl in *.
    apply andb_true_iff in Hb as [-> Hb]. now apply IH. }
  now rewrite H.
Qed.

Lemma digits_inj (u v : Decimal.uint) : digits u = digits v -> u = v.
Proof.
  revert v. induction u; destruct v; simpl; intros H; try discriminate;
    try reflexivity; injection H as H; f_equal; now apply IHu.
Qed.

Lemma digits_head (u : Decimal.uint) (r : jsstring) : digits u <> 45 :: r.
Proof. destruct u; simpl; intros H; discriminate. Qed.

Lemma String_of_int_inj (m n : Z) : String_of_int m = String_of_int n -> m = n.
Proof.
  unfold String_of_int. intros H.
  rewrite <- (DecimalZ.of_to m), <- (DecimalZ.of_to n).
  destruct (Z.to_int m) as [u|u], (Z.to_int n) as [v|v].
  - now rewrite (digits_inj _ _ H).
  - now apply digits_head in H.
  - symmetry in H. now apply digits_head in H.
  - injection H as H. now rewrite (digits_inj _ _ H).
Qed.

(** X13: without [crypto.randomUUID], two calls of [addTodo] at different
    clock readings give different ids. *)
Theorem new_id_clock (e1 e2 : Env) :
  randomUUID e1 = None -> randomUUID e2 = None ->
  Date_now e1 <> Date_now e2 -> new_id e1 <> new_id e2.
Proof.
  unfold new_id. intros -> -> Hne H. apply Hne. now apply String_of_int_inj.
Qed.

Lemma new_id_clock_witness :
  new_id {| randomUUID := None; Date_now := 1700000000000 |}
  <> new_id {| randomUUID := None; Date_now := 1700000000001 |}.
Proof.
  apply new_id_clock; [reflexivity | reflexivity | vm_compute; discriminate].
Defined.

(** ** The edit guard *)

(** X14: [commit] keeps the length, the positions, the ids and the
    [completed] fields; a text changes only on a record that carries the id
    of the edited item, and then it becomes the trimmed draft, which is not
    blank. *)
Theorem commit_frame (x : todo) (draft : jsstring) (l : list todo) :
  length (commit x draft l) = length l /\
  forall (i : nat) (y : todo), l !! i = Some y ->
    exists t,
      commit x draft l !! i
      = Some {| Todo.id := Todo.id y; Todo.text := t; Todo.completed := Todo.completed y |}
      /\ (t = Todo.text y \/
          Todo.id y = Todo.id x /\ t = trim draft /\ blank t = false).
Proof.
  unfold commit.
  destruct (truthy (trim draft)) eqn:Et; simpl.
  - destruct (bool_decide (trim draft = Todo.text x)); simpl.
    + split; [reflexivity|]. intros i y Hy. exists (Todo.text y).
      split; [destruct y; exact Hy | now left].
    + unfold edit. split; [apply length_map|]. intros i y Hy.
      rewrite list_lookup_fmap_Some_2 with (x := y); [|exact Hy].
      destruct (id_is (Todo.id x) y) eqn:E.
      * exists (trim draft). split; [reflexivity|]. right.
        apply id_is_true in E. repeat split; [exact E|].
        apply trim_not_blank. intros Hnil. rewrite Hnil in Et. discriminate.
      * exists (Todo.text y). split; [now destruct y | now left].
  - split; [reflexivity|]. intros i y Hy. exists (Todo.text y).
    split; [destruct y; exact Hy | now left].
Qed.

Lemma commit_frame_witness :
  exists t,
    commit {| Todo.id := js "a"; Todo.text := js "Buy milk"; Todo.completed := true |}
      (js " Buy oat milk ")
      [ {| Todo.id := js "a"; Todo.text := js "Buy milk"; Todo.completed := true |} ] !! 0%nat
    = Some {| Todo.id := js "a"; Todo.text := t; Todo.completed := true |}.
Proof.
  destruct (commit_frame
              {| Todo.id := js "a"; Todo.text := js "Buy milk"; Todo.completed := true |}
              (js " Buy oat milk ")
              [ {| Todo.id := js "a"; Todo.text := js "Buy milk"; Todo.completed := true |} ])
    as [_ H].
  destruct (H 0%nat _ eq_refl) as (t & Ht & _). exists t. exact Ht.
Defined.


(** ** The [App] component *)

Lemma App_addTodo_blank (env : Env) (text : jsstring) (st : App.state) :
  trim text = [] -> App.addTodo env text st = st.
Proof. intros H. unfold App.addTodo. now rewrite H. Qed.

Lemma App_addTodo_input (env : Env) (text : jsstring) (st : App.state) :
  trim text <> [] -> App.input (App.addTodo env text st) = [].
Proof.
  intros H. unfold App.addTodo. destruct (trim text); [contradiction | reflexivity].
Qed.

(** X15: submitting twice in a row adds one record: after a click on Add
    (or Enter in the field), a second click or Enter changes nothing,
    whatever identifier the platform would have supplied.  A submitted text
    that is blank is left in the field and adds nothing; any other empties
    the field. *)
Theorem App_submit_once (env1 env2 : Env) (st : App.state) :
  let st1 := App.handle (App.ClickAdd env1) st in
  App.handle (App.ClickAdd env2) st1 = st1 /\
  App.handle (App.KeyDown (js "Enter") env2) st1 = st1 /\
  App.handle (App.KeyDown (js "Enter") env1) st = st1 /\
  (blank (App.input st) = true -> st1 = st) /\
  (blank (App.input st) = false ->
   App.input st1 = [] /\ length (App.todos st1) = S (length (App.todos st))).
Proof.
  cbn zeta. cbn [App.handle].
  rewrite !bool_decide_eq_true_2 by reflexivity.
  assert (Hagain : App.addTodo env2 (App.input (App.addTodo env1 (App.input st) st))
                     (App.addTodo env1 (App.input st) st)
                   = App.addTodo env1 (App.input st) st).
  { destruct (decide (trim (App.input st) = [])) as [E|E].
    - rewrite (App_addTodo_blank env1 _ st E). now apply App_addTodo_blank.
    - apply App_addTodo_blank. now rewrite App_addTodo_input. }
  assert (Hne : blank (App.input st) = false -> trim (App.input st) <> []).
  { intros Hb E. destruct (trim_split (App.input st)) as (a & b & Hs & Ha & Hb').
    rewrite E in Hs. simpl in Hs. rewrite Hs in Hb. unfold blank in *.
    rewrite forallb_app, Ha, Hb' in Hb. discriminate. }
  split; [exact Hagain|]. split; [exact Hagain|]. split; [reflexivity|]. split.
  - intros Hb. apply App_addTodo_blank. now apply blank_trim.
  - intros Hb. apply Hne in Hb. split; [now apply App_addTodo_input|].
    unfold App.addTodo, addTodo.
    destruct (trim (App.input st)) as [|c t]; [contradiction | reflexivity].
Qed.

Lemma texts_ok_addTodo (env : Env) (s : jsstring) (l : list todo) :
  texts_ok l -> texts_ok (addTodo env s l).
Proof.
  intros Hl. unfold addTodo. destruct (truthy (trim s)) eqn:E; simpl; [|exact Hl].
  constructor; [|exact Hl]. simpl. apply trim_not_blank.
  intros Hnil. rewrite Hnil in E. discriminate.
Qed.

Lemma texts_ok_toggle (id : jsstring) (l : list todo) :
  texts_ok l -> texts_ok (toggle id l).
Proof.
  intros Hl. unfold texts_ok, toggle. apply Forall_fmap.
  eapply Forall_impl; [exact Hl|]. intros x Hx. simpl.
  destruct (id_is id x); exact Hx.
Qed.

Lemma texts_ok_commit (x : todo) (draft : jsstring) (l : list todo) :
  texts_ok l -> texts_ok (commit x draft l).
Proof.
  intros Hl. unfold commit.
  destruct (truthy (trim draft)) eqn:E; simpl; [|exact Hl].
  destruct (bool_decide (trim draft = Todo.text x)); simpl; [exact Hl|].
  apply texts_ok_edit; [|exact Hl]. apply trim_not_blank.
  intros Hnil. rewrite Hnil in E. discriminate.
Qed.

Lemma App_handle_inv (e : App.event) (st : App.state) :
  texts_ok (App.todos st) /\ App.filter st ∈ App.tabs ->
  texts_ok (App.todos (App.handle e st)) /\ App.filter (App.handle e st) ∈ App.tabs.
Proof.
  intros [Ht Hf]. destruct e as [v|key env|env|i| |i|i|i draft]; cbn [App.handle].
  - split; assumption.
  - destruct (bool_decide _); [|split; assumption].
    unfold App.addTodo. destruct (negb _); [split; assumption|].
    split; [now apply texts_ok_addTodo | exact Hf].
  - unfold App.addTodo. destruct (negb _); [split; assumption|].
    split; [now apply texts_ok_addTodo | exact Hf].
  - destruct (App.tabs !! i) as [f|] eqn:E; [|split; assumption].
    split; [exact Ht|]. simpl. eapply list_elem_of_lookup_2, E.
  - split; [|exact Hf]. simpl. now apply filter_keeps_Forall.
  - destruct (App.visible st !! i); [|split; assumption].
    split; [|exact Hf]. simpl. now apply texts_ok_toggle.
  - destruct (App.visible st !! i); [|split; assumption].
    split; [|exact Hf]. simpl. now apply filter_keeps_Forall.
  - destruct (App.visible st !! i); [|split; assumption].
    split; [|exact Hf]. simpl. now apply texts_ok_commit.
Qed.

Lemma App_run_ind (P : App.state -> Prop) :
  (forall e st, P st -> P (App.handle e st)) ->
  forall es st, P st -> P (App.run es st).
Proof.
  intros Hstep es. unfold App.run.
  induction es as [|e es IH]; intros st Hst; [exact Hst|].
  simpl. apply IH. now apply Hstep.
Qed.

(** X16: through the handlers of [App], whatever the user does and in
    whatever order, no record ever gets a blank text (the list the hook
    supplied having none), and the filter is always one of "all", "active"
    and "completed". *)
Theorem App_run_invariant (es : list App.event) (l : list todo) :
  texts_ok l ->
  texts_ok (App.todos (App.run es (App.init l))) /\
  App.filter (App.run es (App.init l)) ∈ App.tabs.
Proof.
  intros Hl.
  apply (App_run_ind (fun st => texts_ok (App.todos st) /\ App.filter st ∈ App.tabs)).
  - apply App_handle_inv.
  - split; [exact Hl | left].
Qed.

Lemma App_run_invariant_witness :
  texts_ok (App.todos
    (App.run [App.Change (js " Buy milk"); App.ClickAdd {| randomUUID := None; Date_now := 5 |};
              App.ClickPill 1; App.ItemCommit 0 (js "  ")]
       (App.init []))).
Proof.
  apply (App_run_invariant
           [App.Change (js " Buy milk"); App.ClickAdd {| randomUUID := None; Date_now := 5 |};
            App.ClickPill 1; App.ItemCommit 0 (js "  ")] []).
  constructor.
Defined.

Lemma unique_ids_eq (l : list todo) (x y : todo) :
  NoDup (ids l) -> x ∈ l -> y ∈ l -> Todo.id x = Todo.id y -> x = y.
Proof.
  unfold ids. induction l as [|z l IH]; intros Hnd Hx Hy E; [now apply elem_of_nil in Hx|].
  simpl in Hnd. apply NoDup_cons in Hnd as [Hz Hnd].
  apply elem_of_cons in Hx as [-> | Hx]; apply elem_of_cons in Hy as [-> | Hy].
  - reflexivity.
  - exfalso. apply Hz. rewrite E. now apply list_elem_of_fmap_2.
  - exfalso. apply Hz. rewrite <- E. now apply list_elem_of_fmap_2.
  - now apply IH.
Qed.

Lemma App_handle_filter (e : App.event) (st : App.state) :
  App.filter st ∈ App.tabs -> App.filter (App.handle e st) ∈ App.tabs.
Proof.
  intros Hf. destruct e as [v|key env|env|i| |i|i|i draft]; cbn [App.handle];
    try exact Hf.
  - destruct (bool_decide _); [|exact Hf]. unfold App.addTodo. now destruct (negb _).
  - unfold App.addTodo. now destruct (negb _).
  - destruct (App.tabs !! i) as [f|] eqn:E; [|exact Hf].
    simpl. eapply list_elem_of_lookup_2, E.
  - now destruct (App.visible st !! i).
  - now destruct (App.visible st !! i).
  - now destruct (App.visible st !! i).
Qed.

(** X17: whatever the user has done, and whatever list the hook supplied,
    exactly one pill of the toolbar is pressed. *)
Theorem Toolbar_one_pill (es : list App.event) (l : list todo) :
  length (List.filter (fun pressed : bool => pressed)
            (Toolbar_pressed (App.filter (App.run es (App.init l))))) = 1%nat.
Proof.
  assert (H : App.filter (App.run es (App.init l)) ∈ App.tabs).
  { apply (App_run_ind (fun st => App.filter st ∈ App.tabs)).
    - apply App_handle_filter.
    - left. }
  unfold App.tabs in H. rewrite !elem_of_cons in H.
  destruct H as [-> | [-> | [-> | H]]]; [reflexivity .. | now apply elem_of_nil in H].
Qed.

(** X18: in the active view, with distinct ids, toggling an item on screen
    takes it off the screen: the view gets one item shorter and the list
    keeps its length. *)
Theorem App_toggle_in_active_view (st : App.state) (i : nat) (x : todo) :
  App.filter st = js "active" -> NoDup (ids (App.todos st)) ->
  App.visible st !! i = Some x ->
  S (length (App.visible (App.handle (App.ItemToggle i) st))) = length (App.visible st) /\
  (x ∉ App.visible (App.handle (App.ItemToggle i) st)) /\
  length (App.todos (App.handle (App.ItemToggle i) st)) = length (App.todos st).
Proof.
  intros Hf Hnd Hx. cbn [App.handle]. rewrite Hx.
  unfold App.visible in *. cbn [App.set_todos App.todos App.filter].
  rewrite Hf in *. rewrite !filtered_active in *.
  assert (Hin : x ∈ App.todos st /\ Todo.completed x = false).
  { apply list_elem_of_lookup_2 in Hx. apply list_elem_of_In, filter_In in Hx as [H1 H2].
    split; [now apply list_elem_of_In | now apply negb_true_iff]. }
  destruct Hin as [Hin Hc].
  pose proof (left_toggle x (App.todos st) Hnd Hin) as Hleft. rewrite Hc in Hleft.
  unfold left in Hleft. repeat split.
  - lia.
  - intros H. apply list_elem_of_In, filter_In in H as [H _].
    unfold toggle in H. apply in_map_iff in H as (y & Hy & Hyl).
    apply list_elem_of_In in Hyl.
    destruct (id_is (Todo.id x) y) eqn:E.
    + apply id_is_true in E.
      assert (y = x) as -> by (now apply (unique_ids_eq (App.todos st))).
      pose proof Hc as Hc'. rewrite <- Hy in Hc'. simpl in Hc'.
      rewrite Hc in Hc'. discriminate.
    + apply id_is_false in E. now subst y.
  - unfold toggle. apply length_map.
Qed.

Lemma App_toggle_in_active_view_witness :
  S (length (App.visible (App.handle (App.ItemToggle 0)
       {| App.todos := [ {| Todo.id := js "a"; Todo.text := js "Buy milk";
                            Todo.completed := false |} ];
          App.input := []; App.filter := js "active" |})))
  = 1%nat.
Proof.
  apply (App_toggle_in_active_view
           {| App.todos := [ {| Todo.id := js "a"; Todo.text := js "Buy milk";
                                Todo.completed := false |} ];
              App.input := []; App.filter := js "active" |} 0
           {| Todo.id := js "a"; Todo.text := js "Buy milk"; Todo.completed := false |}).
  - reflexivity.
  - apply (bool_decide_unpack _). vm_compute. reflexivity.
  - reflexivity.
Defined.


(** ** More on the hook *)



Lemma storage_eta (st : Storage) :
  {| items := items st; denied := denied st; quota := quota st |} = st.
Proof. now destruct st. Qed.

(** X20: mounting the hook on a storage that holds a serialised task list
    under the key returns that list and leaves the storage exactly as it
    was: the write-back of the first effect changes nothing. *)
Theorem mount_keeps_saved_list (st : Storage) (key : jsstring) (l : list todo)
    (initialValue : json) :
  denied st = false -> items st !! key = Some (stringify (of_todos l)) ->
  useLocalStorage_mount st key initialValue = Normal (of_todos l, st).
Proof.
  intros Hd Hi. unfold useLocalStorage_mount.
  assert (Hload : useLocalStorage_load st key initialValue = Normal (of_todos l)).
  { unfold useLocalStorage_load, getItem, bind. rewrite Hd, Hi.
    assert (truthy (stringify (of_todos l)) = true) as -> by reflexivity.
    now rewrite JSON_parse_stringify_todos. }
  rewrite Hload. cbn [bind].
  unfold useLocalStorage_save, JSON_stringify, setItem. cbn [bind]. rewrite Hd.
  rewrite (insert_id _ _ _ Hi).
  destruct (_ <? _); simpl; [reflexivity|]. rewrite <- Hd. now rewrite storage_eta.
Qed.

Lemma mount_keeps_saved_list_witness :
  useLocalStorage_mount
    (storage_with todos_key
       (stringify (of_todos [ {| Todo.id := js "a"; Todo.text := js "Buy milk";
                                 Todo.completed := true |} ])))
    todos_key no_todos
  = Normal (of_todos [ {| Todo.id := js "a"; Todo.text := js "Buy milk";
                          Todo.completed := true |} ],
            storage_with todos_key
              (stringify (of_todos [ {| Todo.id := js "a"; Todo.text := js "Buy milk";
                                        Todo.completed := true |} ]))).
Proof.
  apply mount_keeps_saved_list; [reflexivity|]. apply lookup_singleton_eq.
Defined.


